(** * muser: MIDI event codec and note-triggered capture

    A shallow embedding of [muser/sequencer.py] (velocity vectors and their
    encoding as MIDI events) and of the capture loop of [examples/nn_fft.py].

    Conventions.
    - A numpy [float64] array is a [list Q], each entry the rational a
      finite [float64] stands for; a product of two [float64] is the
      [float64] nearest to the exact product, ties to even
      ([float64_round]).
    - A numpy [uint8] is a [Z] in [0, 256).  Casting an array of integers
      to [uint8] keeps the low eight bits; casting an array of [float64]
      truncates toward zero and keeps the low eight bits of the 32-bit
      integer obtained, which is [0] for a value outside of 32 bits (the
      conversion of x86-64); storing one Python [int] raises an
      [OverflowError] when it does not fit.
    - A Python [str] is a [string] of ASCII characters: [str.upper] and
      [str.lower] are modelled on such strings only ([is_ascii_str]).
    - A Python exception is a [Raise] result. *)

From Stdlib Require Import ZArith QArith Qround Qabs List String Ascii Bool Lia
  Sorted.
From stdpp Require Import base list.
Import ListNotations.

Open Scope Z_scope.

(** ** Python results *)

Inductive py_error : Type :=
| IndexError
| KeyError
| TypeError
| ValueError
| OverflowError.

Inductive result (A : Type) : Type :=
| Ok (a : A)
| Raise (e : py_error).

Arguments Ok {A} a.
Arguments Raise {A} e.

Definition bind {A B : Type} (r : result A) (f : A -> result B) : result B :=
  match r with
  | Ok a => f a
  | Raise e => Raise e
  end.

Notation "'let*' x ':=' r 'in' k" := (bind r (fun x => k))
  (at level 10, x name, r at level 100, k at level 200).

(** A value that is either a Python [str] or some other object. *)
Inductive pykey (A : Type) : Type :=
| KeyStr (s : string)
| KeyObj (a : A).

Arguments KeyStr {A} s.
Arguments KeyObj {A} a.

(** What [_key_check] hands back: the dictionary's value, or the key. *)
Inductive checked (V A : Type) : Type :=
| Found (v : V)
| Passed (k : pykey A).

Arguments Found {V A} v.
Arguments Passed {V A} k.

Inductive str_case : Type :=
| upper
| lower.

(** ** numpy *)

Module Numpy.

Definition is_upper_letter (c : ascii) : bool :=
  ((65 <=? nat_of_ascii c) && (nat_of_ascii c <=? 90))%nat.

Definition is_lower_letter (c : ascii) : bool :=
  ((97 <=? nat_of_ascii c) && (nat_of_ascii c <=? 122))%nat.

Definition ascii_upper (c : ascii) : ascii :=
  if is_lower_letter c then ascii_of_nat (nat_of_ascii c - 32) else c.

Definition ascii_lower (c : ascii) : ascii :=
  if is_upper_letter c then ascii_of_nat (nat_of_ascii c + 32) else c.

Fixpoint str_map (f : ascii -> ascii) (s : string) : string :=
  match s with
  | EmptyString => EmptyString
  | String c r => String (f c) (str_map f r)
  end.

(** [getattr(s, case)()] on a string of ASCII characters. *)
Definition apply_case (c : str_case) (s : string) : string :=
  match c with
  | upper => str_map ascii_upper s
  | lower => str_map ascii_lower s
  end.

(** The strings on which [apply_case] is [str.upper] and [str.lower]:
    every character is below 128. *)
Fixpoint is_ascii_str (s : string) : bool :=
  match s with
  | EmptyString => true
  | String c r => (nat_of_ascii c <? 128)%nat && is_ascii_str r
  end.

(** [dict_[key]] on a dictionary with string keys. *)
Fixpoint dict_get {V : Type} (dict_ : list (string * V)) (key : string)
  : option V :=
  match dict_ with
  | [] => None
  | (k, v) :: rest => if String.eqb k key then Some v else dict_get rest key
  end.

(** [dict_[key]] where a missing key is an error. *)
Definition dict_item {V : Type} (dict_ : list (string * V)) (key : string)
  : result V :=
  match dict_get dict_ key with
  | Some v => Ok v
  | None => Raise KeyError
  end.

(** [a[i]] for a position [i] counted from the front. *)
Definition getitem {A : Type} (a : list A) (i : nat) : result A :=
  match nth_error a i with
  | Some x => Ok x
  | None => Raise IndexError
  end.

(** [np.arange(lo, hi)]. *)
Definition arange (lo hi : Z) : list Z :=
  map (fun k => lo + Z.of_nat k) (seq 0 (Z.to_nat (hi - lo))).

(** [np.zeros(n)]. *)
Definition zeros (n : Z) : result (list Q) :=
  if n <? 0 then Raise ValueError else Ok (repeat (0 : Q) (Z.to_nat n)).

(** An entry counts as nonzero when it differs from [0.0]. *)
Definition is_nonzero (x : Q) : bool := negb (Qnum x =? 0).

Fixpoint flatnonzero_from (i : nat) (a : list Q) : list nat :=
  match a with
  | [] => []
  | x :: rest =>
      if is_nonzero x then i :: flatnonzero_from (S i) rest
      else flatnonzero_from (S i) rest
  end.

(** [np.flatnonzero(a)]: the indices of the nonzero entries. *)
Definition flatnonzero (a : list Q) : list nat := flatnonzero_from 0 a.

(** [np.any(a)]. *)
Definition any (a : list Q) : bool := existsb is_nonzero a.

(** Rounding toward zero, as the C cast from [double] does. *)
Definition Qtruncate (q : Q) : Z := Z.quot (Qnum q) (Z.pos (Qden q)).

(** The integer nearest to [q], the even one of two that are as near. *)
Definition round_half_even (q : Q) : Z :=
  let f := Qfloor q in
  match Qcompare (q - inject_Z f) (1 # 2) with
  | Lt => f
  | Gt => f + 1
  | Eq => if Z.even f then f else f + 1
  end.

(** [2 ^ e] for an exponent of either sign. *)
Definition Qpow2 (e : Z) : Q :=
  if 0 <=? e then inject_Z (2 ^ e) else 1 # Z.to_pos (2 ^ (- e)).

(** The exponent [e] with [2 ^ e <= |q| < 2 ^ (e + 1)], for [q] not 0. *)
Definition binade (q : Q) : Z :=
  let e := Z.log2 (Z.abs (Qnum q)) - Z.log2 (Z.pos (Qden q)) in
  if Qle_bool (Qpow2 e) (Qabs q) then e else e - 1.

(** The [float64] nearest to [q], ties to even: 53 significant bits, and
    no exponent below that of the subnormal numbers.  A magnitude beyond
    the largest [float64] is left finite here, where the machine gives
    infinity; the cast below turns both into the same byte. *)
Definition float64_round (q : Q) : Q :=
  if Qnum q =? 0 then 0%Q
  else
    let e := Z.max (binade q - 52) (-1074) in
    (inject_Z (round_half_even (q / Qpow2 e)) * Qpow2 e)%Q.

(** [a * b] on [float64]. *)
Definition float64_mul (a b : Q) : Q := float64_round (a * b).

(** Casting an array of integers to [uint8]. *)
Definition uint8_of_int (z : Z) : Z := z mod 256.

(** Storing one Python [int] into a [uint8] array. *)
Definition uint8_of_pyint (z : Z) : result Z :=
  if (0 <=? z) && (z <? 256) then Ok z else Raise OverflowError.

(** Casting an array of [float64] to [uint8]. *)
Definition uint8_of_float (q : Q) : Z :=
  let t := Qtruncate q in
  if (- 2 ^ 31 <=? t) && (t <? 2 ^ 31) then t mod 256 else 0.

(** [a[idx]] for an index array [idx] already known to be in range. *)
Definition getitem_list (a : list Q) (idx : list nat) : list Q :=
  map (fun i => nth i a (0 : Q)) idx.

(** One index of a fancy-index write on an array of length [len]. *)
Definition normalize_index (len : nat) (i : Z) : result nat :=
  if (0 <=? i) && (i <? Z.of_nat len) then Ok (Z.to_nat i)
  else if (- Z.of_nat len <=? i) && (i <? 0)
       then Ok (Z.to_nat (i + Z.of_nat len))
       else Raise IndexError.

(** [a[[i1, i2, ...]] = x]. *)
Fixpoint setitem_list (a : list Q) (idx : list Z) (x : Q)
  : result (list Q) :=
  match idx with
  | [] => Ok a
  | i :: rest =>
      let* n := normalize_index (length a) i in
      setitem_list (<[n := x]> a) rest x
  end.

(** [slice] called on the unpacked sequence [args]: it takes between one
    and three arguments. *)
Definition slice (args : list Z) : result (option Z * Z * Z) :=
  match args with
  | [stop] => Ok (None, stop, 1)
  | [start; stop] => Ok (Some start, stop, 1)
  | [start; stop; step] => Ok (Some start, stop, step)
  | _ => Raise TypeError
  end.

Definition clip_index (len step i : Z) : Z :=
  if i <? 0 then
    (if i + len <? 0 then (if step <? 0 then -1 else 0) else i + len)
  else if len <=? i then (if step <? 0 then len - 1 else len)
  else i.

(** The positions a slice selects in an array of length [len]. *)
Definition slice_indices (sl : option Z * Z * Z) (len : nat)
  : result (list nat) :=
  let '(start, stop, step) := sl in
  let n := Z.of_nat len in
  if step =? 0 then Raise ValueError
  else
    let start' := match start with
                  | Some s => clip_index n step s
                  | None => if step <? 0 then n - 1 else 0
                  end in
    let stop' := clip_index n step stop in
    let count :=
      if step <? 0
      then (if stop' <? start' then (start' - stop' - 1) / (- step) + 1 else 0)
      else (if start' <? stop' then (stop' - start' - 1) / step + 1 else 0) in
    Ok (map (fun k => Z.to_nat (start' + Z.of_nat k * step))
            (seq 0 (Z.to_nat count))).

(** [a[sl] = x] for a slice [sl]. *)
Definition setitem_slice (a : list Q) (sl : option Z * Z * Z) (x : Q)
  : result (list Q) :=
  let* idx := slice_indices sl (length a) in
  Ok (fold_left (fun acc i => <[i := x]> acc) idx a).

End Numpy.

(** ** muser/sequencer.py *)

Module Sequencer.
Import Numpy.

Definition N_PITCHES : Z := 127.
Definition VELOCITY_LO : Z := 0.
Definition VELOCITY_HI : Z := 127.
Definition VELOCITY_LIMS : Z * Z := (VELOCITY_LO, VELOCITY_HI + 1).

Definition STATUS_BYTES : list (string * Z) :=
  [ ("NOTE_ON"%string, 0x90);
    ("NOTE_OFF"%string, 0x80);
    ("CONTROL"%string, 0xB0) ].

Definition CONTROL_BYTES : list (string * Z) :=
  [ ("PEDAL_SUSTAIN"%string, 0x40);
    ("PEDAL_PORTAMENTO"%string, 0x41);
    ("PEDAL_SOSTENUTO"%string, 0x42);
    ("PEDAL_SOFT"%string, 0x43);
    ("RESET_ALL_CONTROLLERS"%string, 0x79);
    ("ALL_NOTES_OFF"%string, 0x7B) ].

Definition PITCH_LIMS : list (string * (Z * Z)) :=
  [ ("midi"%string, (0, 127));
    ("piano"%string, (21, 108)) ].

Definition PITCH_RANGES : list (string * list Z) :=
  map (fun '(name, lim) => (name, arange (fst lim) (snd lim + 1))) PITCH_LIMS.

(** [_key_check(dict_, key, case)].  A key without the [case] method (an
    integer, a tuple, an array) is handed back as it is; a string is
    converted and looked up, and handed back when the lookup fails. *)
Definition _key_check {V A : Type} (dict_ : list (string * V))
    (key : pykey A) (case : option str_case) : checked V A :=
  match key with
  | KeyObj a => Passed (KeyObj a)
  | KeyStr s =>
      let key' := match case with
                  | Some c => apply_case c s
                  | None => s
                  end in
      match dict_get dict_ key' with
      | Some value => Found value
      | None => Passed (KeyStr key')
      end
  end.

(** One row of the array [vector_to_midi_events] returns. *)
Record event : Type := Event {
  ev_status : Z;
  ev_data1 : Z;
  ev_data2 : Z
}.

(** [chord_events.transpose()] for the three rows of [chord_events]. *)
Fixpoint transpose (r0 r1 r2 : list Z) : list event :=
  match r0, r1, r2 with
  | s :: r0', p :: r1', v :: r2' => Event s p v :: transpose r0' r1' r2'
  | _, _, _ => []
  end.

(** What [chord_events[0] = status] stores, before the cast to [uint8]:
    the byte found in [STATUS_BYTES], or the integer passed; a string that
    is no key of [STATUS_BYTES] is no integer for numpy. *)
Definition status_int (st : checked Z Z) : result Z :=
  match st with
  | Found b => Ok b
  | Passed (KeyObj b) => Ok b
  | Passed (KeyStr _) => Raise ValueError
  end.

Definition vector_to_midi_events (status : pykey Z) (velocity_vector : list Q)
  : result (list event) :=
  let status := _key_check STATUS_BYTES status (Some upper) in
  let pitches := flatnonzero velocity_vector in
  let velocities :=
    map (fun x => float64_mul x (inject_Z VELOCITY_HI))
        (getitem_list velocity_vector pitches) in
  let* s := status_int status in
  let* s := uint8_of_pyint s in
  let row0 := repeat s (length pitches) in
  let row1 := map (fun p => uint8_of_int (Z.of_nat p)) pitches in
  let row2 := map uint8_of_float velocities in
  Ok (transpose row0 row1 row2).

(** The event [vector_to_midi_events] builds for the entry at position
    [i], for an integer status [s]. *)
Definition event_of (s : Z) (v : list Q) (i : nat) : event :=
  Event (uint8_of_int s) (uint8_of_int (Z.of_nat i))
        (uint8_of_float (float64_mul (nth i v 0%Q) (inject_Z VELOCITY_HI))).

(** [midi_velocity_vector()]. *)
Definition midi_velocity_vector : result (list Q) :=
  let* midi := dict_item PITCH_RANGES "midi" in
  let* n := getitem midi 1 in
  zeros n.

(** A [music21.note.Note] as the module reads it: [pitch.midi] and
    [volume.velocity]. *)
Record Note : Type := {
  note_pitch : Z;
  note_velocity : Q
}.

(** A [music21.chord.Chord] as the module reads it: the [midi] number of
    each of [chord.pitches], and [chord.volume.velocity]. *)
Record Chord : Type := {
  chord_pitches : list Z;
  chord_volume_velocity : option Q
}.

(** The velocities music21 reports: it keeps a velocity within 0 and 127,
    and reports it as an integer. *)
Definition music21_velocity (c : Q) : Prop :=
  exists k : Z, 0 <= k <= 127 /\ c = inject_Z k.

Definition chord_to_velocity_vector (chord : Chord) : result (list Q) :=
  let chord_velocity :=
    match chord_volume_velocity chord with
    | None => 1%Q
    | Some c => c
    end in
  let* velocity_vector := midi_velocity_vector in
  setitem_list velocity_vector
    (map (fun p => p - 1) (chord_pitches chord)) chord_velocity.

(** The outcomes of the calls to [np.random]: what [np.random.choice]
    returned, and what the [k]-th call of [np.random.randint] returned. *)
Record rng : Type := {
  choice_outcome : list Z;
  randint_outcome : nat -> Z
}.

(** [picked] is a possible outcome of
    [np.random.choice(a, size, replace=replace)]. *)
Definition choice_ok (a : list Z) (size : nat) (replace : bool)
    (picked : list Z) : bool :=
  (length picked =? size)%nat
  && forallb (fun p => existsb (Z.eqb p) a) picked
  && (replace || bool_decide (NoDup picked)).

(** The population [np.random.choice] draws from, once [_key_check] has
    resolved the range: a name that is not a key is no population. *)
Definition population (pitch_range : checked (list Z) (list Z))
  : result (list Z) :=
  match pitch_range with
  | Found arr => Ok arr
  | Passed (KeyObj seq) => Ok seq
  | Passed (KeyStr _) => Raise ValueError
  end.

(** [np.random.choice(a, size, replace=replace)] with outcome [picked]. *)
Definition random_choice (a : list Z) (size : nat) (replace : bool)
    (picked : list Z) : result (list Z) :=
  match a with
  | [] => Raise ValueError
  | _ => if negb replace && (length a <? size)%nat then Raise ValueError
         else Ok picked
  end.

(** [np.random.choice(a)] with outcome [picked]: one element of a
    population that is not empty. *)
Definition random_choice_one (a : list Z) (picked : Z) : result Z :=
  match a with
  | [] => Raise ValueError
  | _ => Ok picked
  end.

(** [np.random.randint(low, high)] with outcome [drawn]: the bounds must
    leave room for one integer at least. *)
Definition random_randint (lims : Z * Z) (drawn : Z) : result Z :=
  if fst lims <? snd lims then Ok drawn else Raise ValueError.

(** [music21.note.Note(p).pitch.midi] for an integer [p] from 0 to 127:
    music21 reads a number below 12 as a pitch class, and puts it into
    the octave of middle C. *)
Definition Note_pitch_midi (p : Z) : Z := if p <? 12 then p + 60 else p.

(** What [note.volume.velocity] holds once a velocity is stored in it:
    music21 keeps it within 0 and 127. *)
Definition Volume_velocity (v : Q) : Q :=
  if Qle_bool v 0 then 0%Q
  else if Qle_bool (inject_Z 127) v then inject_Z 127
  else v.

(** [random_note(pitch, pitch_range, velocity, velocity_lims)]; [picked]
    and [drawn] are the outcomes of [np.random.choice] and of
    [np.random.randint], where they are called. *)
Definition random_note (picked drawn : Z) (pitch : option Z)
    (pitch_range : pykey (list Z)) (velocity : option Q)
    (velocity_lims : Z * Z) : result Note :=
  let* pitch :=
    match pitch with
    | None =>
        let pitch_range := _key_check PITCH_RANGES pitch_range (Some lower) in
        let* a := population pitch_range in
        random_choice_one a picked
    | Some p => Ok p
    end in
  let* velocity :=
    match velocity with
    | None =>
        let* drawn := random_randint velocity_lims drawn in
        Ok (inject_Z drawn)
    | Some v => Ok v
    end in
  Ok {| note_pitch := Note_pitch_midi pitch;
        note_velocity := Volume_velocity velocity |}.

(** The results of a list comprehension: the first exception ends it. *)
Fixpoint result_all {A : Type} (l : list (result A)) : result (list A) :=
  match l with
  | [] => Ok []
  | r :: rest =>
      let* a := r in
      let* rest' := result_all rest in
      Ok (a :: rest')
  end.

Section Music21.

(** [music21.chord.Chord(notes).volume.velocity], computed by music21
    from the notes of the chord. *)
Variable Chord_volume_velocity : list Note -> option Q.

(** [music21.chord.Chord(notes)]. *)
Definition Chord_of_notes (notes : list Note) : Chord :=
  {| chord_pitches := map note_pitch notes;
     chord_volume_velocity := Chord_volume_velocity notes |}.

(** [random_chord] calls [random_note(pitch=p, velocity=velocity,
    velocity_lims=velocity_lims)] for each pitch drawn, the range left to
    its default; the call for the [k]-th pitch draws
    [randint_outcome g k] when it draws a velocity. *)
Definition random_chord (g : rng) (chord_size : nat)
    (pitch_range : pykey (list Z)) (velocity : option Q)
    (velocity_lims : Z * Z) (unique : bool) : result Chord :=
  let pitch_range := _key_check PITCH_RANGES pitch_range (Some lower) in
  let* a := population pitch_range in
  let* pitches :=
    random_choice a chord_size (negb unique) (choice_outcome g) in
  let* notes :=
    result_all
      (map (fun '(k, p) =>
              random_note 0 (randint_outcome g k) (Some p) (KeyStr "full")
                velocity velocity_lims)
           (combine (seq 0 (length pitches)) pitches)) in
  Ok (Chord_of_notes notes).

Definition note_to_velocity_vector (note : Note) : result (list Q) :=
  chord_to_velocity_vector (Chord_of_notes [note]).

Definition random_velocity_vector (g : rng) (pitches : nat)
    (pitch_range : pykey (list Z)) (velocity : option Q)
    (velocity_lims : Z * Z) : result (list Q) :=
  let* chord :=
    random_chord g pitches pitch_range velocity velocity_lims true in
  chord_to_velocity_vector chord.

End Music21.

(** The arguments [slice] is called on when the resolved range is
    unpacked: the characters of a string are no slice bounds. *)
Definition slice_args (pitch_range : checked (list Z) (list Z))
  : result (list Z) :=
  match pitch_range with
  | Found arr => Ok arr
  | Passed (KeyObj seq) => Ok seq
  | Passed (KeyStr _) => Raise TypeError
  end.

Definition midi_all_notes_off (midi_basic : bool)
    (pitch_range : pykey (list Z)) : result (list event) :=
  let pitch_range := _key_check PITCH_RANGES pitch_range (Some lower) in
  if midi_basic then
    let* pitches_off := zeros N_PITCHES in
    let* args := slice_args pitch_range in
    let* sl := slice args in
    let* pitches_off := setitem_slice pitches_off sl 1%Q in
    let* note_off := dict_item STATUS_BYTES "NOTE_OFF" in
    vector_to_midi_events (KeyObj note_off) pitches_off
  else
    let* control := dict_item STATUS_BYTES "CONTROL" in
    let* all_notes_off := dict_item CONTROL_BYTES "ALL_NOTES_OFF" in
    Ok [Event control all_notes_off 0].

End Sequencer.

(** ** examples/nn_fft.py

    The script runs in two threads: the control thread executes the
    statements of the capture loop, and the audio engine calls [process] once
    per period.  This module has the globals, the statements, and the
    executions in which no call of [process] overlaps a statement of the
    control thread: an interleaving of whole statements with whole calls
    of [process] and, possibly, an interrupt, one evaluation of the
    [while] condition reading [buffer_] and [buffers] at the same instant.
    The executions in which they overlap are those of [NnFftThreads]
    below, of which these are the [sequential] ones.  The helpers of
    [muser.iodata] the script calls on the MIDI port and on the engine are
    recorded as the calls made, with their arguments. *)

Module NnFft.
Import Numpy Sequencer.

Definition N_MIDI_PITCHES : Z := 127.

(** [channels = len(synth_outports)]. *)
Definition channels : nat := 2.

(** The samples of one channel for one period. *)
Definition block : Type := list Q.

(** An array of shape [[channels, 1, buffer_size]]: one block per
    channel. *)
Definition frame : Type := list block.

(** One entry of [recordings]; the [buffers] field holds no object until
    it is assigned. *)
Record recording : Type := {
  pitch_vector : list Q;
  rec_buffers : option (list frame)
}.

(** A call made on the MIDI port. *)
Inductive midi_call : Type :=
| send_events (events : list event)
| midi_all_notes_off_call (midi_basic : bool).

(** The statements of the control thread, by line. *)
Inductive label : Type :=
| L81   (* for recording in batch: ... to_midi_note_events(pitch_vector) *)
| L84   (* note_toggle = True *)
| L85   (* send_events(events[0]) *)
| L86   (* while np.any(buffer_[0]) or buffers.shape[1] < 10: pass *)
| L90   (* note_toggle = False *)
| L91   (* send_events(events[1]) *)
| L92   (* recording['buffers'] = buffers *)
| L93   (* buffers = np.ndarray([channels, 0, buffer_size]) *)
| L105  (* past the try statement *)
| Lraise (* the exception left the script *).

(** The globals of the script.  [buffers] has shape
    [[channels, n, buffer_size]] and is kept as its [n] frames;
    [recordings] is kept in iteration order, [cur] being the position of
    the loops. *)
Record state : Type := {
  note_toggle : bool;
  buffer_ : frame;
  buffers : list frame;
  recordings : list recording;
  cur : nat;
  events : list event * list event;
  midi_out : list midi_call;
  clients_open : bool;
  pc : label
}.

Definition set_note_toggle (b : bool) (st : state) : state :=
  {| note_toggle := b; buffer_ := buffer_ st; buffers := buffers st;
     recordings := recordings st; cur := cur st; events := events st;
     midi_out := midi_out st; clients_open := clients_open st;
     pc := pc st |}.

Definition set_capture (f : frame) (fs : list frame) (st : state) : state :=
  {| note_toggle := note_toggle st; buffer_ := f; buffers := fs;
     recordings := recordings st; cur := cur st; events := events st;
     midi_out := midi_out st; clients_open := clients_open st;
     pc := pc st |}.

Definition set_recordings (rs : list recording) (st : state) : state :=
  {| note_toggle := note_toggle st; buffer_ := buffer_ st;
     buffers := buffers st; recordings := rs; cur := cur st;
     events := events st; midi_out := midi_out st;
     clients_open := clients_open st; pc := pc st |}.

Definition set_cur (n : nat) (st : state) : state :=
  {| note_toggle := note_toggle st; buffer_ := buffer_ st;
     buffers := buffers st; recordings := recordings st; cur := n;
     events := events st; midi_out := midi_out st;
     clients_open := clients_open st; pc := pc st |}.

Definition set_events (e : list event * list event) (st : state) : state :=
  {| note_toggle := note_toggle st; buffer_ := buffer_ st;
     buffers := buffers st; recordings := recordings st; cur := cur st;
     events := e; midi_out := midi_out st;
     clients_open := clients_open st; pc := pc st |}.

Definition call_midi (c : midi_call) (st : state) : state :=
  {| note_toggle := note_toggle st; buffer_ := buffer_ st;
     buffers := buffers st; recordings := recordings st; cur := cur st;
     events := events st; midi_out := midi_out st ++ [c];
     clients_open := clients_open st; pc := pc st |}.

Definition close_clients (st : state) : state :=
  {| note_toggle := note_toggle st; buffer_ := buffer_ st;
     buffers := buffers st; recordings := recordings st; cur := cur st;
     events := events st; midi_out := midi_out st;
     clients_open := false; pc := pc st |}.

Definition goto (l : label) (st : state) : state :=
  {| note_toggle := note_toggle st; buffer_ := buffer_ st;
     buffers := buffers st; recordings := recordings st; cur := cur st;
     events := events st; midi_out := midi_out st;
     clients_open := clients_open st; pc := l |}.

(** [process(frames)], called with the arrays of the engine's input
    ports. *)
Definition process (inports : list block) (st : state) : state :=
  if note_toggle st then
    let buffer_' :=
      fold_left (fun b ch => <[ch := nth ch inports []]> b)
                (seq 0 channels) (buffer_ st) in
    set_capture buffer_' (buffers st ++ [buffer_']) st
  else st.

(** The condition of the [while] statement of line 86. *)
Definition keep_waiting (st : state) : bool :=
  any (nth 0 (buffer_ st) []) || (length (buffers st) <? 10)%nat.

(** [recording['buffers'] = buffers] for the recording at [cur]. *)
Definition store (st : state) : list recording :=
  match recordings st !! cur st with
  | Some r =>
      <[cur st := {| pitch_vector := pitch_vector r;
                     rec_buffers := Some (buffers st) |}]> (recordings st)
  | None => recordings st
  end.

(** The statements from [try] to [except]. *)
Definition in_try (l : label) : bool :=
  match l with
  | L105 | Lraise => false
  | _ => true
  end.

(** The [except (KeyboardInterrupt, SystemExit)] clause. *)
Definition handler (st : state) : state :=
  goto Lraise
    (close_clients
       (call_midi (midi_all_notes_off_call true)
          (set_note_toggle false st))).

Section Script.

(** [muser.iodata.to_midi_note_events]: the note-on and the note-off
    events of a pitch vector. *)
Variable to_midi_note_events : list Q -> list event * list event.

(** One statement of the control thread. *)
Definition control (st : state) : state :=
  match pc st with
  | L81 =>
      match recordings st !! cur st with
      | Some recording =>
          goto L84
            (set_events (to_midi_note_events (pitch_vector recording)) st)
      | None => goto L105 st
      end
  | L84 => goto L85 (set_note_toggle true st)
  | L85 => goto L86 (call_midi (send_events (fst (events st))) st)
  | L86 => if keep_waiting st then st else goto L90 st
  | L90 => goto L91 (set_note_toggle false st)
  | L91 => goto L92 (call_midi (send_events (snd (events st))) st)
  | L92 => goto L93 (set_recordings (store st) st)
  | L93 => goto L81 (set_cur (S (cur st)) (set_capture (buffer_ st) [] st))
  | L105 => st
  | Lraise => st
  end.

(** What can happen next in an execution. *)
Inductive occurrence : Type :=
| Control
| Callback (inports : list block)
| Interrupt.

Definition step (st : state) (o : occurrence) : state :=
  match o with
  | Control => control st
  | Callback inports => if clients_open st then process inports st else st
  | Interrupt => if in_try (pc st) then handler st else goto Lraise st
  end.

Definition run (schedule : list occurrence) (st : state) : state :=
  fold_left step schedule st.

(** An engine that delivers the given input, the control thread
    evaluating its next statement after each period. *)
Definition scripted (input : list (list block)) : list occurrence :=
  flat_map (fun inports => [Callback inports; Control]) input.

End Script.

(** The script at the [try] statement, for the pitch vectors generated. *)
Definition initial (vectors : list (list Q)) (garbage : frame) : state :=
  {| note_toggle := false;
     buffer_ := garbage;
     buffers := [];
     recordings :=
       map (fun v => {| pitch_vector := v; rec_buffers := None |}) vectors;
     cur := 0;
     events := ([], []);
     midi_out := [];
     clients_open := true;
     pc := L81 |}.




(** The block tested by the [while] statement is the last one appended,
    as soon as one has been appended. *)
Definition last_captured (st : state) : Prop :=
  buffers st = [] \/ exists pre, buffers st = pre ++ [buffer_ st].

(** What holds of the globals throughout an execution: [buffer_] keeps
    its shape, the clients are open until the exception leaves the
    script, and the sink is enabled from line 85 to the end of the
    [while] statement. *)
Definition globals_ok (st : state) : Prop :=
  length (buffer_ st) = channels /\
  (pc st <> Lraise -> clients_open st = true) /\
  (pc st = L85 \/ pc st = L86 -> note_toggle st = true).

(** A frame is silent when every sample of every channel is zero. *)
Definition silent (f : frame) : bool :=
  forallb (fun b => negb (any b)) f.


(** The note-on and note-off events of a vector, as [note_to_midi_onoff]
    builds them. *)
Definition onoff_events (v : list Q) : list event * list event :=
  match vector_to_midi_events (KeyObj 0x90) v,
        vector_to_midi_events (KeyObj 0x80) v with
  | Ok note_on, Ok note_off => (note_on, note_off)
  | _, _ => ([], [])
  end.

End NnFft.

(** ** muser/sequencer.py, the functions built on the codec *)

Module SequencerNotes.
Import Numpy Sequencer.

Section Music21.

Variable Chord_volume_velocity : list Note -> option Q.

Definition note_to_midi_onoff (note : Note)
  : result (list event * list event) :=
  let* vector := note_to_velocity_vector Chord_volume_velocity note in
  let* status_on := dict_item STATUS_BYTES "NOTE_ON" in
  let* note_on := vector_to_midi_events (KeyObj status_on) vector in
  let* status_off := dict_item STATUS_BYTES "NOTE_OFF" in
  let* note_off := vector_to_midi_events (KeyObj status_off) vector in
  Ok (note_on, note_off).

End Music21.

End SequencerNotes.

(** ** muser/iodata.py *)

Module Iodata.
Import Numpy.

Definition SND_DTYPES : list (string * Z) :=
  [ ("int16"%string, 16); ("int32"%string, 32) ].

(** What [send_events] does on the port and the clock. *)
Inductive port_action (E : Type) : Type :=
| send_message (event : E)
| sleep (pause : Q).

Arguments send_message {E} event.
Arguments sleep {E} pause.

(** One pass of [for event, pause in events] in which every pause is
    accepted. *)
Definition send_pass {E : Type} (events : list (E * Q))
  : list (port_action E) :=
  flat_map (fun '(event, pause) => [send_message event; sleep pause]) events.

(** One pass as it runs: [time.sleep] raises a ValueError on a negative
    pause, the event before it being sent already. *)
Fixpoint run_pass {E : Type} (events : list (E * Q))
  : list (port_action E) * result unit :=
  match events with
  | [] => ([], Ok tt)
  | (event, pause) :: rest =>
      if Qle_bool 0 pause then
        let '(actions, r) := run_pass rest in
        (send_message event :: sleep pause :: actions, r)
      else ([send_message event], Raise ValueError)
  end.

(** [send_events(events, loop)], the function [get_send_events] returns:
    [while True] with [fuel] bounding the number of passes; [done] is what
    has happened on the port so far. *)
Fixpoint send_events {E : Type} (fuel : nat) (events : list (E * Q))
    (loop : Z) (done : list (port_action E))
  : option (list (port_action E) * result unit) :=
  match fuel with
  | O => None
  | S fuel' =>
      let '(actions, r) := run_pass events in
      let done' := done ++ actions in
      match r with
      | Raise e => Some (done', Raise e)
      | Ok _ =>
          if 1 <? loop then send_events fuel' events (loop - 1) done'
          else Some (done', Ok tt)
      end
  end.

(** An array read from a [.wav] file: the name of its dtype and its
    integer samples. *)
Record wav_array : Type := {
  dtype_name : string;
  samples : list Z
}.

(** [unit_snd(snd)], the factor left to its default. *)
Definition unit_snd (snd : wav_array) : result (list Q) :=
  let* bits := dict_item SND_DTYPES (dtype_name snd) in
  let factor := inject_Z (2 ^ (bits - 1)) in
  Ok (map (fun x => (inject_Z x / factor)%Q) (samples snd)).

End Iodata.

(** ** Executions of examples/nn_fft.py *)

Module NnFftRuns.
Import Numpy Sequencer NnFft.

(** What [process] leaves in [buffer_] for the input of one period. *)
Definition captured (inports : list block) : frame :=
  map (fun ch => nth ch inports []) (seq 0 channels).

(** The inputs the engine delivers along a schedule. *)
Definition inputs_of (schedule : list occurrence) : list (list block) :=
  flat_map (fun o => match o with
                     | Callback inports => [inports]
                     | _ => []
                     end) schedule.

(** A schedule of polls and periods during which the [while] statement
    cannot end, [n] blocks having been appended before it: every block is
    among the first nine or sounds on channel 0. *)
Fixpoint waits (n : nat) (schedule : list occurrence) : Prop :=
  match schedule with
  | [] => True
  | Control :: rest => waits n rest
  | Callback inports :: rest =>
      ((S n < 10)%nat \/ any (nth 0 inports []) = true) /\ waits (S n) rest
  | Interrupt :: _ => False
  end.

(** Every recording that holds buffers holds at least ten. *)
Definition stored_long (st : state) : Prop :=
  forall i r fs, recordings st !! i = Some r -> rec_buffers r = Some fs ->
                 (10 <= length fs)%nat.

(** Where the sink is enabled, and what [buffers] holds outside of a
    capture. *)
Definition window (st : state) : Prop :=
  match pc st with
  | L81 | L84 | L105 => note_toggle st = false /\ buffers st = []
  | L85 | L86 => note_toggle st = true
  | L90 => note_toggle st = true /\ (10 <= length (buffers st))%nat
  | L91 | L92 => note_toggle st = false /\ (10 <= length (buffers st))%nat
  | L93 | Lraise => note_toggle st = false
  end.

Section Script.

Variable to_midi_note_events : list Q -> list event * list event.

(** The calls that trigger and release the notes of one pitch vector. *)
Definition note_calls (v : list Q) : list midi_call :=
  [ send_events (fst (to_midi_note_events v));
    send_events (snd (to_midi_note_events v)) ].

(** The calls made on the port when the control thread is at [l] in the
    cycle of the recording at [n]. *)
Definition traffic (vectors : list (list Q)) (n : nat) (l : label)
  : list midi_call :=
  flat_map note_calls (firstn n vectors)
  ++ match vectors !! n with
     | None => []
     | Some v =>
         match l with
         | L86 | L90 | L91 => [send_events (fst (to_midi_note_events v))]
         | L92 | L93 => note_calls v
         | _ => []
         end
     end.

(** The calls on the port follow the recordings: the pitch vectors are
    those generated, [events] holds the events of the recording at [cur]
    during its cycle, and the port has seen [traffic]. *)
Definition port_follows (vectors : list (list Q)) (st : state) : Prop :=
  map pitch_vector (recordings st) = vectors /\
  match pc st with
  | Lraise => True
  | L105 =>
      (length vectors <= cur st)%nat /\
      midi_out st = traffic vectors (cur st) L105
  | L81 => midi_out st = traffic vectors (cur st) L81
  | l =>
      (exists v, vectors !! cur st = Some v /\
                 events st = to_midi_note_events v) /\
      midi_out st = traffic vectors (cur st) l
  end.

End Script.

End NnFftRuns.

(** ** examples/nn_fft.py, the two threads statement by statement

    The model above lets a call of [process] happen between two
    statements of the control thread, and the condition of the [while]
    statement be evaluated at once.  Here the callback is the statements
    it is made of, evaluated by the thread of the engine while the
    control thread goes on, and the two operands of the condition are
    evaluated one after the other.  [buffer_] is written in place, one
    channel at a time, by the thread of the engine only;
    [buffers = np.append(buffers, buffer_, axis=1)] reads [buffers],
    builds the longer array, and stores it, and the control thread may
    empty [buffers] in between. *)

Module NnFftThreads.
Import Numpy Sequencer NnFft.

(** Where the thread of the engine is in a call of [process], by line. *)
Inductive callback_pc : Type :=
| Idle                                   (* no call in progress *)
| P69 (inports : list block)             (* if note_toggle: *)
| P71 (inports : list block) (ch : nat)  (* buffer_[ch] = ...get_array() *)
| P72                                    (* np.append(buffers, buffer_, axis=1) *)
| P72_store (value : list frame)         (* buffers = the array built *).

(** The globals, with the control thread's position in them; whether the
    control thread, in the condition of line 86, has found
    [np.any(buffer_[0])] false and is about to compare
    [buffers.shape[1]]; and the position of the thread of the engine. *)
Record threads : Type := {
  globals : state;
  tested : bool;
  callback : callback_pc
}.

(** What can happen next: the control thread evaluates a statement, or an
    operand of the condition of line 86; the engine calls [process]; the
    thread of the engine evaluates a statement of [process]; an interrupt
    is raised in the control thread. *)
Inductive move : Type :=
| Statement
| Enter (inports : list block)
| Proceed
| Signal.

(** One statement of [process]. *)
Definition callback_thread (t : threads) : threads :=
  let st := globals t in
  match callback t with
  | Idle => t
  | P69 inports =>
      {| globals := st; tested := tested t;
         callback := if note_toggle st then P71 inports 0 else Idle |}
  | P71 inports ch =>
      {| globals :=
           set_capture (<[ch := nth ch inports []]> (buffer_ st))
                       (buffers st) st;
         tested := tested t;
         callback := if (S ch <? channels)%nat then P71 inports (S ch)
                     else P72 |}
  | P72 =>
      {| globals := st; tested := tested t;
         callback := P72_store (buffers st ++ [buffer_ st]) |}
  | P72_store value =>
      {| globals := set_capture (buffer_ st) value st;
         tested := tested t; callback := Idle |}
  end.

(** The engine calls [process] when no call is in progress. *)
Definition enter (inports : list block) (t : threads) : threads :=
  match callback t with
  | Idle =>
      if clients_open (globals t)
      then {| globals := globals t; tested := tested t;
              callback := P69 inports |}
      else t
  | _ => t
  end.

Section Script.

Variable to_midi_note_events : list Q -> list event * list event.

(** One statement of the control thread; at line 86, one operand of
    [np.any(buffer_[0]) or buffers.shape[1] < 10]. *)
Definition control_thread (t : threads) : threads :=
  let st := globals t in
  match pc st with
  | L86 =>
      if tested t then
        if (length (buffers st) <? 10)%nat
        then {| globals := st; tested := false; callback := callback t |}
        else {| globals := goto L90 st; tested := false;
                callback := callback t |}
      else
        if any (nth 0 (buffer_ st) []) then t
        else {| globals := st; tested := true; callback := callback t |}
  | _ =>
      {| globals := control to_midi_note_events st; tested := false;
         callback := callback t |}
  end.

Definition move_step (t : threads) (m : move) : threads :=
  match m with
  | Statement => control_thread t
  | Enter inports => enter inports t
  | Proceed => callback_thread t
  | Signal =>
      {| globals := step to_midi_note_events (globals t) Interrupt;
         tested := false; callback := callback t |}
  end.

Definition play (moves : list move) (t : threads) : threads :=
  fold_left move_step moves t.

(** A call of [process] evaluated from its first to its last statement
    with nothing in between. *)
Definition whole_callback (inports : list block) : list move :=
  Enter inports :: repeat Proceed 5.

(** A statement of the control thread evaluated with nothing in between:
    at line 86, the whole condition. *)
Definition whole_statement (t : threads) : list move :=
  match pc (globals t) with
  | L86 =>
      if any (nth 0 (buffer_ (globals t)) []) then [Statement]
      else [Statement; Statement]
  | _ => [Statement]
  end.

(** The moves of an execution in which the calls of [process] and the
    statements of the control thread follow each other as [schedule]
    says, none starting before the one before it has ended. *)
Fixpoint sequential (schedule : list occurrence) (t : threads)
  : list move :=
  match schedule with
  | [] => []
  | o :: rest =>
      let moves :=
        match o with
        | Control => whole_statement t
        | Callback inports => whole_callback inports
        | Interrupt => [Signal]
        end in
      moves ++ sequential rest (play moves t)
  end.

End Script.

(** The threads at the [try] statement. *)
Definition start (vectors : list (list Q)) (garbage : frame) : threads :=
  {| globals := initial vectors garbage; tested := false;
     callback := Idle |}.

(** A call of [process] in progress that has channel 0 of [buffer_] still
    to write, writes samples that are not all zero. *)
Definition sounding (c : callback_pc) : Prop :=
  match c with
  | P69 inports | P71 inports 0 => any (nth 0 inports []) = true
  | _ => True
  end.

(** A move that leaves the control thread waiting in line 86 whenever
    channel 0 sounds: no interrupt, and no call of [process] with a
    silent channel 0. *)
Definition sounds_on (m : move) : Prop :=
  match m with
  | Enter inports => any (nth 0 inports []) = true
  | Signal => False
  | _ => True
  end.

(** The array a call of [process] is about to store is longer than
    [buffers]. *)
Definition store_grows (t : threads) : Prop :=
  match callback t with
  | P72_store value => (length (buffers (globals t)) < length value)%nat
  | _ => True
  end.

(** Ten blocks at least are in [buffers] from the end of the [while]
    statement to the statement that stores them. *)
Definition ten_blocks (t : threads) : Prop :=
  match pc (globals t) with
  | L90 | L91 | L92 => (10 <= length (buffers (globals t)))%nat
  | _ => True
  end.

End NnFftThreads.

(** * Properties of the codec *)

Module SequencerFacts.
Import Numpy Sequencer.

Lemma is_nonzero_Qeq (x : Q) : is_nonzero x = true <-> ~ (x == 0)%Q.
Proof.
  unfold is_nonzero, Qeq. cbn [Qnum Qden].
  rewrite negb_true_iff, Z.eqb_neq. lia.
Qed.

Lemma flatnonzero_from_In (a : list Q) : forall k i,
  In i (flatnonzero_from k a) <->
  (k <= i)%nat /\ (i - k < length a)%nat /\ is_nonzero (nth (i - k) a 0%Q) = true.
Proof.
  induction a as [|x a IH]; intros k i; cbn [flatnonzero_from length].
  - split; [intros [] | intros (_ & H & _); lia].
  - assert (Hrest : In i (flatnonzero_from (S k) a) <->
                    (k < i)%nat /\ (i - k < S (length a))%nat /\
                    is_nonzero (nth (i - k) (x :: a) 0%Q) = true).
    { rewrite IH. split.
      - intros (H1 & H2 & H3). split; [lia|]. split; [lia|].
        replace (i - k)%nat with (S (i - S k)) by lia. exact H3.
      - intros (H1 & H2 & H3). split; [lia|]. split; [lia|].
        replace (i - k)%nat with (S (i - S k)) in H3 by lia. exact H3. }
    destruct (is_nonzero x) eqn:Hx.
    + cbn [In]. rewrite Hrest. split.
      * intros [<- | (H1 & H2 & H3)].
        -- rewrite Nat.sub_diag. cbn. split; [lia|]. split; [lia|]. exact Hx.
        -- split; [lia|]. split; assumption.
      * intros (H1 & H2 & H3).
        destruct (Nat.eq_dec k i) as [->|Hne]; [now left|].
        right. split; [lia|]. split; assumption.
    + rewrite Hrest. split.
      * intros (H1 & H2 & H3). split; [lia|]. split; assumption.
      * intros (H1 & H2 & H3).
        destruct (Nat.eq_dec k i) as [->|Hne].
        -- rewrite Nat.sub_diag in H3. cbn in H3. congruence.
        -- split; [lia|]. split; assumption.
Qed.

Lemma flatnonzero_from_sorted (a : list Q) : forall k,
  StronglySorted Nat.lt (flatnonzero_from k a).
Proof.
  induction a as [|x a IH]; intros k; cbn [flatnonzero_from].
  - constructor.
  - destruct (is_nonzero x); [|apply IH].
    constructor; [apply IH|].
    apply List.Forall_forall. intros j Hj.
    apply flatnonzero_from_In in Hj. unfold Nat.lt. lia.
Qed.

Lemma flatnonzero_from_length (a : list Q) : forall k,
  length (flatnonzero_from k a) = length (List.filter is_nonzero a).
Proof.
  induction a as [|x a IH]; intros k; cbn [flatnonzero_from List.filter].
  - reflexivity.
  - destruct (is_nonzero x); cbn [length]; now rewrite IH.
Qed.

Lemma transpose_map (s : Z) (f g : nat -> Z) (l : list nat) :
  transpose (repeat s (length l)) (map f l) (map g l)
  = map (fun i => Event s (f i) (g i)) l.
Proof.
  induction l as [|i l IH]; cbn [length repeat map transpose].
  - reflexivity.
  - now rewrite IH.
Qed.

Lemma uint8_of_pyint_byte (s : Z) :
  0 <= s < 256 -> uint8_of_pyint s = Ok s.
Proof.
  intros Hs. unfold uint8_of_pyint.
  destruct (Z.leb_spec 0 s); [|lia].
  destruct (Z.ltb_spec s 256); [reflexivity | lia].
Qed.

Lemma uint8_of_pyint_overflow (s : Z) :
  s < 0 \/ 256 <= s -> uint8_of_pyint s = Raise OverflowError.
Proof.
  intros Hs. unfold uint8_of_pyint.
  destruct (Z.leb_spec 0 s); [|reflexivity].
  destruct (Z.ltb_spec s 256); [lia | reflexivity].
Qed.

Lemma vector_to_midi_events_int (s : Z) (v : list Q) :
  0 <= s < 256 ->
  vector_to_midi_events (KeyObj s) v = Ok (map (event_of s v) (flatnonzero v)).
Proof.
  intros Hs.
  unfold vector_to_midi_events, _key_check, status_int, getitem_list.
  cbn [bind]. rewrite (uint8_of_pyint_byte s Hs). cbn [bind].
  rewrite !map_map. f_equal. unfold event_of, uint8_of_int.
  rewrite (Z.mod_small s 256 Hs).
  apply (transpose_map s
           (fun p => Z.of_nat p mod 256)
           (fun i => uint8_of_float
                       (float64_mul (nth i v 0%Q) (inject_Z VELOCITY_HI)))).
Qed.

Lemma status_bytes_are_bytes (key : string) (b : Z) :
  dict_get STATUS_BYTES key = Some b -> 0 <= b < 256.
Proof.
  unfold STATUS_BYTES. cbn [dict_get]. intros H.
  repeat match type of H with
         | (if ?c then _ else _) = _ => destruct c
         end; try discriminate; injection H as <-; lia.
Qed.

Lemma vector_to_midi_events_key (name : string) (b : Z) (v : list Q) :
  dict_get STATUS_BYTES (apply_case upper name) = Some b ->
  vector_to_midi_events (KeyStr name) v = Ok (map (event_of b v) (flatnonzero v)).
Proof.
  intros Hb.
  rewrite <- (vector_to_midi_events_int b v (status_bytes_are_bytes _ _ Hb)).
  unfold vector_to_midi_events, _key_check. now rewrite Hb.
Qed.

Lemma flatnonzero_In (v : list Q) (i : nat) :
  In i (flatnonzero v) <-> (i < length v)%nat /\ ~ (nth i v 0 == 0)%Q.
Proof.
  unfold flatnonzero. rewrite flatnonzero_from_In, is_nonzero_Qeq.
  rewrite Nat.sub_0_r. intuition lia.
Qed.

Lemma nth_error_events (s : Z) (v : list Q) (k i : nat) :
  nth_error (flatnonzero v) k = Some i ->
  nth_error (map (event_of s v) (flatnonzero v)) k = Some (event_of s v i).
Proof. intros H. now rewrite List.nth_error_map, H. Qed.

Lemma round_half_even_floor (q : Q) :
  round_half_even q = Qfloor q \/
  (round_half_even q = Qfloor q + 1 /\ (inject_Z (Qfloor q) < q)%Q).
Proof.
  unfold round_half_even.
  destruct (Qcompare (q - inject_Z (Qfloor q)) (1 # 2)) eqn:Hc.
  - destruct (Z.even (Qfloor q)); [now left|]. right. split; [reflexivity|].
    apply Qeq_alt in Hc.
    assert (H : (q == inject_Z (Qfloor q) + (1 # 2))%Q)
      by (rewrite <- Hc; ring).
    apply Qlt_le_trans with (inject_Z (Qfloor q) + (1 # 2))%Q.
    + rewrite <- (Qplus_0_r (inject_Z (Qfloor q))) at 1.
      apply Qplus_lt_r. reflexivity.
    + apply Qle_lteq. right. symmetry. exact H.
  - now left.
  - right. split; [reflexivity|].
    apply Qgt_alt in Hc.
    apply (Qplus_lt_l _ _ (- inject_Z (Qfloor q))).
    rewrite Qplus_opp_r.
    apply Qlt_trans with (1 # 2)%Q; [reflexivity|exact Hc].
Qed.

Lemma round_half_even_le (q : Q) (n : Z) :
  (q <= inject_Z n)%Q -> round_half_even q <= n.
Proof.
  intros Hq.
  assert (Hf : Qfloor q <= n).
  { rewrite <- (Qfloor_Z n). now apply Qfloor_resp_le. }
  destruct (round_half_even_floor q) as [-> | (-> & Hlt)]; [exact Hf|].
  assert (H : (inject_Z (Qfloor q) < inject_Z n)%Q)
    by (eapply Qlt_le_trans; eassumption).
  rewrite <- Zlt_Qlt in H. lia.
Qed.

Lemma round_half_even_nonneg (q : Q) :
  (0 <= q)%Q -> 0 <= round_half_even q.
Proof.
  intros Hq.
  assert (Hf : 0 <= Qfloor q).
  { rewrite <- (Qfloor_Z 0). now apply Qfloor_resp_le. }
  destruct (round_half_even_floor q) as [-> | (-> & _)]; lia.
Qed.

Lemma Qpow2_pos (e : Z) : (0 < Qpow2 e)%Q.
Proof.
  unfold Qpow2. destruct (0 <=? e) eqn:He.
  - apply Z.leb_le in He. change 0%Q with (inject_Z 0).
    rewrite <- Zlt_Qlt. now apply Z.pow_pos_nonneg.
  - reflexivity.
Qed.

Lemma Qdiv_unit_fraction (n : Z) (p : positive) :
  (inject_Z n / (1 # p) == inject_Z (n * Z.pos p))%Q.
Proof. unfold Qdiv, Qinv, Qmult, Qeq, inject_Z. simpl. lia. Qed.

Lemma Qdiv_Qpow2_nonpos (n e : Z) :
  e <= 0 -> (inject_Z n / Qpow2 e == inject_Z (n * 2 ^ (- e)))%Q.
Proof.
  intros He. unfold Qpow2. destruct (Z.leb_spec 0 e) as [H0|H0].
  - assert (e = 0) as -> by lia.
    change (2 ^ 0) with 1. change (2 ^ (- 0)) with 1.
    rewrite Z.mul_1_r. unfold Qdiv, Qinv, Qmult, Qeq, inject_Z. simpl. lia.
  - assert (Hp : 0 < 2 ^ (- e)) by (apply Z.pow_pos_nonneg; lia).
    rewrite Qdiv_unit_fraction. now rewrite Z2Pos.id.
Qed.

Lemma binade_le (x : Q) (m : Z) :
  0 <= m -> (Qabs x <= inject_Z (2 ^ m))%Q -> binade x <= m.
Proof.
  intros Hm Hx.
  assert (H : Z.log2 (Z.abs (Qnum x)) - Z.log2 (Z.pos (Qden x)) <= m).
  { destruct x as [n d]. unfold Qabs, Qle in Hx. cbn [Qnum Qden inject_Z] in *.
    rewrite Z.mul_1_r in Hx.
    assert (Z.log2 (Z.abs n) <= Z.log2 (Z.pos d * 2 ^ m))
      by (apply Z.log2_le_mono; lia).
    rewrite Z.log2_mul_pow2 in H by lia. lia. }
  unfold binade. destruct (Qle_bool _ _); lia.
Qed.

Lemma scaled_round_bounds (x s : Q) (n m : Z) :
  (0 < s)%Q -> (inject_Z n / s == inject_Z m)%Q ->
  (0 <= x)%Q -> (x <= inject_Z n)%Q ->
  (0 <= inject_Z (round_half_even (x / s)) * s)%Q /\
  (inject_Z (round_half_even (x / s)) * s <= inject_Z n)%Q.
Proof.
  intros Hs Hm H0 Hn.
  assert (Hs' : ~ (s == 0)%Q)
    by (intros H; rewrite H in Hs; now apply Qlt_irrefl in Hs).
  split.
  - apply Qmult_le_0_compat; [|now apply Qlt_le_weak].
    change 0%Q with (inject_Z 0). rewrite <- Zle_Qle.
    apply round_half_even_nonneg.
    apply Qle_shift_div_l; [exact Hs|]. now rewrite Qmult_0_l.
  - assert (Hr : round_half_even (x / s) <= m).
    { apply round_half_even_le. rewrite <- Hm.
      unfold Qdiv. apply Qmult_le_compat_r; [exact Hn|].
      apply Qlt_le_weak. now apply Qinv_lt_0_compat. }
    apply Qle_trans with (inject_Z m * s)%Q.
    + apply Qmult_le_compat_r; [now rewrite <- Zle_Qle|].
      now apply Qlt_le_weak.
    + rewrite <- Hm. unfold Qdiv. rewrite <- Qmult_assoc.
      rewrite (Qmult_comm (/ s)), Qmult_inv_r by exact Hs'.
      rewrite Qmult_1_r. apply Qle_refl.
Qed.

(** A [float64] rounding does not leave an interval of integers of at
    most 52 bits. *)
Lemma float64_round_bounds (x : Q) (n : Z) :
  0 <= n <= 2 ^ 52 -> (0 <= x)%Q -> (x <= inject_Z n)%Q ->
  (0 <= float64_round x)%Q /\ (float64_round x <= inject_Z n)%Q.
Proof.
  intros Hn H0 Hx. unfold float64_round.
  destruct (Qnum x =? 0).
  - split; [apply Qle_refl|]. change 0%Q with (inject_Z 0).
    rewrite <- Zle_Qle. lia.
  - set (e := Z.max (binade x - 52) (-1074)).
    assert (He : e <= 0).
    { assert (binade x <= 52); [|unfold e; lia].
      apply binade_le; [lia|]. rewrite Qabs_pos by exact H0.
      apply Qle_trans with (inject_Z n); [exact Hx|].
      rewrite <- Zle_Qle. lia. }
    apply (scaled_round_bounds x (Qpow2 e) n (n * 2 ^ (- e)));
      [apply Qpow2_pos | now apply Qdiv_Qpow2_nonpos | exact H0 | exact Hx].
Qed.

Lemma Qtruncate_bounds (q : Q) (n : Z) :
  (0 <= q)%Q -> (q <= inject_Z n)%Q -> 0 <= Qtruncate q <= n.
Proof.
  destruct q as [a b]. unfold Qle, Qtruncate.
  cbn [Qnum Qden inject_Z]. intros H0 Hn.
  rewrite Z.mul_1_r in *. rewrite Z.quot_div_nonneg by lia.
  split.
  - apply Z.div_pos; lia.
  - apply Z.div_le_upper_bound; lia.
Qed.

Lemma velocity_byte_bounds (x : Q) :
  (0 <= x)%Q -> (x <= 1)%Q ->
  0 <= Qtruncate (float64_mul x (inject_Z VELOCITY_HI)) <= 127.
Proof.
  intros H0 H1. unfold float64_mul, VELOCITY_HI.
  assert (Hp0 : (0 <= x * inject_Z 127)%Q).
  { apply Qmult_le_0_compat; [exact H0|]. unfold Qle; simpl; lia. }
  assert (Hp1 : (x * inject_Z 127 <= inject_Z 127)%Q).
  { rewrite <- (Qmult_1_l (inject_Z 127)) at 2.
    apply Qmult_le_compat_r; [exact H1|]. unfold Qle; simpl; lia. }
  destruct (float64_round_bounds (x * inject_Z 127) 127) as (Hr0 & Hr1);
    [lia | exact Hp0 | exact Hp1 |].
  now apply Qtruncate_bounds.
Qed.

(** C1.  For every velocity vector [v] and status byte [s],
    [vector_to_midi_events s v] returns one event per nonzero entry of
    [v]: the events follow the strictly ascending indices of the nonzero
    entries, the [k]-th event carrying the [k]-th such index as its pitch
    byte, and every event has status byte [s]. *)
Theorem vector_to_midi_events_one_event_per_nonzero_entry
    (s : Z) (v : list Q) :
  0 <= s < 256 ->
  exists evs : list event,
    vector_to_midi_events (KeyObj s) v = Ok evs /\
    length evs = length (List.filter is_nonzero v) /\
    (forall i, In i (flatnonzero v) <->
               (i < length v)%nat /\ ~ (nth i v 0 == 0)%Q) /\
    StronglySorted Nat.lt (flatnonzero v) /\
    (forall k i, nth_error (flatnonzero v) k = Some i ->
       exists e, nth_error evs k = Some e /\
                 ev_data1 e = Z.of_nat i mod 256 /\
                 ev_data2 e
                 = uint8_of_float
                     (float64_mul (nth i v 0%Q) (inject_Z VELOCITY_HI))) /\
    ((length v <= 256)%nat ->
     map ev_data1 evs = map Z.of_nat (flatnonzero v)) /\
    Forall (fun e => ev_status e = s) evs.
Proof.
  intros Hs. exists (map (event_of s v) (flatnonzero v)).
  split; [now apply vector_to_midi_events_int|].
  split; [rewrite length_map; apply flatnonzero_from_length|].
  split; [apply flatnonzero_In|].
  split; [apply flatnonzero_from_sorted|].
  split.
  { intros k i Hk. exists (event_of s v i).
    split; [now apply nth_error_events|]. split; reflexivity. }
  split.
  { intros Hlen. rewrite map_map. apply map_ext_in.
    intros i Hi. apply flatnonzero_In in Hi. cbn.
    apply Z.mod_small. lia. }
  apply List.Forall_forall. intros e He.
  apply in_map_iff in He. destruct He as (i & <- & _).
  cbn. apply Z.mod_small. lia.
Qed.

Lemma vector_to_midi_events_one_event_per_nonzero_entry_witness :
  exists evs : list event,
    vector_to_midi_events (KeyObj 0x90) [0%Q; 1%Q; 0%Q; (1 # 2)%Q] = Ok evs /\
    length evs = 2%nat.
Proof.
  destruct (vector_to_midi_events_one_event_per_nonzero_entry
              0x90 [0%Q; 1%Q; 0%Q; (1 # 2)%Q])
    as (evs & Hev & Hlen & _); [lia|].
  exists evs. split; [exact Hev | exact Hlen].
Defined.

(** C2, as the code has it.  The velocity byte of a nonzero entry [e]
    with [0 <= e <= 1] is the [float64] product [e * 127], that is the
    [float64] nearest to the exact product, truncated toward zero, and it
    lies in [0, 127].  Nothing is clamped. *)
Theorem velocity_byte_truncates_normalized_entry
    (s : Z) (v : list Q) (k i : nat) :
  0 <= s < 256 ->
  nth_error (flatnonzero v) k = Some i ->
  (0 <= nth i v 0)%Q ->
  (nth i v 0 <= 1)%Q ->
  exists evs e,
    vector_to_midi_events (KeyObj s) v = Ok evs /\
    nth_error evs k = Some e /\
    ev_data2 e
    = Qtruncate (float64_mul (nth i v 0%Q) (inject_Z VELOCITY_HI)) /\
    0 <= ev_data2 e <= 127.
Proof.
  intros Hs Hk H0 H1.
  exists (map (event_of s v) (flatnonzero v)), (event_of s v i).
  split; [now apply vector_to_midi_events_int|].
  split; [now apply nth_error_events|].
  pose proof (velocity_byte_bounds _ H0 H1) as Hb.
  cbn [event_of ev_data2]. unfold uint8_of_float.
  set (t := Qtruncate _) in *.
  destruct (Z.leb_spec (- 2 ^ 31) t); [|lia].
  destruct (Z.ltb_spec t (2 ^ 31)); [|lia].
  cbn [andb]. rewrite Z.mod_small by lia. split; [reflexivity | exact Hb].
Qed.

Lemma velocity_byte_truncates_normalized_entry_witness :
  exists evs e,
    vector_to_midi_events (KeyObj 0x90) [0%Q; float64_round (3 # 127)]
    = Ok evs /\
    nth_error evs 0 = Some e /\
    ev_data2 e = 3 /\
    0 <= ev_data2 e <= 127.
Proof.
  apply (velocity_byte_truncates_normalized_entry
           0x90 [0%Q; float64_round (3 # 127)] 0 1).
  - lia.
  - vm_compute. reflexivity.
  - vm_compute. discriminate.
  - vm_compute. discriminate.
Defined.

(** The product is the rounded one: for the [float64] nearest to
    [3 / 127] the byte is 3, where the exact product, just below 3, would
    be truncated to 2. *)
Lemma velocity_byte_of_rounded_product :
  vector_to_midi_events (KeyObj 0x90) [float64_round (3 # 127)]
  = Ok [Event 0x90 0 3] /\
  Qtruncate (float64_round (3 # 127) * inject_Z VELOCITY_HI) = 2.
Proof. vm_compute. split; reflexivity. Qed.

(** C2 fails as stated: the entry [2.0] is encoded as the velocity byte
    254, which lies outside [0, 127]. *)
Lemma velocity_byte_not_clamped :
  vector_to_midi_events (KeyObj 0x90) [2%Q] = Ok [Event 0x90 0 254] /\
  ~ (forall evs e,
       vector_to_midi_events (KeyObj 0x90) [2%Q] = Ok evs ->
       In e evs -> 0 <= ev_data2 e <= 127).
Proof.
  assert (E : vector_to_midi_events (KeyObj 0x90) [2%Q]
              = Ok [Event 0x90 0 254]) by (vm_compute; reflexivity).
  split; [exact E|].
  intros H.
  pose proof (H [Event 0x90 0 254] (Event 0x90 0 254)
                E (or_introl eq_refl)) as Hb.
  cbn [ev_data2] in Hb. lia.
Qed.

(** *** All notes off *)

Lemma midi_all_notes_off_pair :
  midi_all_notes_off true (KeyObj [0; 127])
  = Ok (map (fun p => Event 0x80 p 127) (arange 0 127)).
Proof. vm_compute. reflexivity. Qed.

(** C3, as the code has it.  With [midi_basic] true and the range given
    as the pair [(0, 127)], [midi_all_notes_off] returns 127 NOTE_OFF
    events, one for each of the pitches 0 to 126, each with velocity byte
    127; with [midi_basic] false it returns the single event
    [(CONTROL, ALL_NOTES_OFF, 0)], whatever the range. *)
Theorem midi_all_notes_off_events :
  midi_all_notes_off true (KeyObj [0; 127])
  = Ok (map (fun p => Event 0x80 p 127) (arange 0 127)) /\
  length (arange 0 127) = 127%nat /\
  (forall pitch_range,
     midi_all_notes_off false pitch_range = Ok [Event 0xB0 0x7B 0]).
Proof.
  split; [apply midi_all_notes_off_pair|].
  split; [reflexivity|].
  intros pitch_range. reflexivity.
Qed.

(** C3 fails as stated: over the range named ['midi'], the default, the
    call with [midi_basic] true raises a TypeError, the 128 entries of the
    range being unpacked into [slice]; and where the call returns, the
    velocity bytes are 127, not 0. *)
Lemma midi_all_notes_off_basic_default_raises :
  midi_all_notes_off true (KeyStr "midi") = Raise TypeError /\
  (forall evs e,
     midi_all_notes_off true (KeyObj [0; 127]) = Ok evs ->
     In e evs -> ev_data2 e = 127).
Proof.
  split; [vm_compute; reflexivity|].
  intros evs e Hev He.
  rewrite midi_all_notes_off_pair in Hev.
  assert (Hevs : evs = map (fun p => Event 0x80 p 127) (arange 0 127))
    by congruence.
  rewrite Hevs in He. clear Hev Hevs.
  apply in_map_iff in He. destruct He as (p & <- & _). reflexivity.
Qed.

(** *** Construction of velocity vectors *)

Lemma normalize_index_above (len : nat) (i : Z) :
  Z.of_nat len <= i -> normalize_index len i = Raise IndexError.
Proof.
  intros H. unfold normalize_index.
  destruct (0 <=? i) eqn:H0, (i <? Z.of_nat len) eqn:H1,
           (- Z.of_nat len <=? i) eqn:H2, (i <? 0) eqn:H3;
    cbn; try reflexivity; lia.
Qed.

Lemma normalize_index_error (len : nat) (i : Z) (e : py_error) :
  normalize_index len i = Raise e -> e = IndexError.
Proof.
  unfold normalize_index.
  destruct ((0 <=? i) && (i <? Z.of_nat len)); [discriminate|].
  destruct ((- Z.of_nat len <=? i) && (i <? 0)); [discriminate|].
  congruence.
Qed.

Lemma setitem_list_out_of_range (idx : list Z) : forall (a : list Q) (x : Q),
  (exists i, In i idx /\ Z.of_nat (length a) <= i) ->
  setitem_list a idx x = Raise IndexError.
Proof.
  induction idx as [|j idx IH]; intros a x (i & Hin & Hi).
  - destruct Hin.
  - cbn [setitem_list]. unfold bind.
    destruct (normalize_index (length a) j) as [n|e] eqn:Hn.
    + destruct Hin as [->|Hin].
      * rewrite normalize_index_above in Hn by exact Hi. discriminate.
      * apply IH. exists i. split; [exact Hin|].
        now rewrite length_insert.
    + now rewrite (normalize_index_error _ _ _ Hn).
Qed.

Lemma chord_to_velocity_vector_setitem (chord : Chord) :
  chord_to_velocity_vector chord
  = setitem_list [0%Q] (map (fun p => p - 1) (chord_pitches chord))
      (match chord_volume_velocity chord with
       | None => 1%Q
       | Some c => c
       end).
Proof. reflexivity. Qed.

(** C10.  [midi_velocity_vector] reads the entry at position 1 of the
    range [np.arange(0, 128)], which is 1, and returns a vector with that
    single entry.  Hence [chord_to_velocity_vector], writing at
    [pitch.midi - 1], raises an IndexError for every chord with a pitch of
    MIDI number 2 or more, and for pitch 0 writes position -1, the last
    entry, without an error. *)
Theorem midi_velocity_vector_has_one_entry :
  dict_item PITCH_RANGES "midi" = Ok (arange 0 128) /\
  getitem (arange 0 128) 1 = Ok 1 /\
  midi_velocity_vector = Ok [0%Q] /\
  (forall chord p,
     In p (chord_pitches chord) -> 2 <= p ->
     chord_to_velocity_vector chord = Raise IndexError) /\
  normalize_index 1 (0 - 1) = Ok 0%nat /\
  (forall c,
     chord_to_velocity_vector
       {| chord_pitches := [0]; chord_volume_velocity := Some c |}
     = Ok [c]).
Proof.
  split; [reflexivity|]. split; [reflexivity|]. split; [reflexivity|].
  split.
  { intros chord p Hin Hp. rewrite chord_to_velocity_vector_setitem.
    apply setitem_list_out_of_range. exists (p - 1). split.
    - apply in_map_iff. exists p. split; [reflexivity | exact Hin].
    - cbn. lia. }
  split; [reflexivity|].
  intros c. reflexivity.
Qed.

Lemma midi_velocity_vector_has_one_entry_witness :
  chord_to_velocity_vector
    {| chord_pitches := [60; 64; 67]; chord_volume_velocity := None |}
  = Raise IndexError.
Proof.
  apply (proj1 (proj2 (proj2 (proj2 midi_velocity_vector_has_one_entry)))
           {| chord_pitches := [60; 64; 67]; chord_volume_velocity := None |}
           60).
  - simpl. left. reflexivity.
  - lia.
Defined.

(** C7, as the code has it.  Nothing is checked when a vector is built:
    [chord_to_velocity_vector] stores the velocity music21 reports for
    the chord as it is, a MIDI velocity of up to 127 where the encoding
    expects a fraction of 1.  And [vector_to_midi_events] returns for
    every vector, with entries in range or not, when the status is a byte
    or a key of [STATUS_BYTES]; only a status that is no byte makes it
    raise, an OverflowError. *)
Theorem no_range_check_and_encode_total :
  (forall c : Q,
     music21_velocity c ->
     chord_to_velocity_vector
       {| chord_pitches := [1]; chord_volume_velocity := Some c |}
     = Ok [c]) /\
  (forall (s : Z) (v : list Q),
     0 <= s < 256 ->
     vector_to_midi_events (KeyObj s) v
     = Ok (map (event_of s v) (flatnonzero v))) /\
  (forall (v : list Q),
     exists on off control,
       vector_to_midi_events (KeyStr "NOTE_ON") v = Ok on /\
       vector_to_midi_events (KeyStr "NOTE_OFF") v = Ok off /\
       vector_to_midi_events (KeyStr "CONTROL") v = Ok control) /\
  (forall (s : Z) (v : list Q),
     s < 0 \/ 256 <= s ->
     vector_to_midi_events (KeyObj s) v = Raise OverflowError).
Proof.
  split; [intros c _; reflexivity|].
  split; [intros s v Hs; now apply vector_to_midi_events_int|].
  split.
  - intros v. do 3 eexists.
    split; [|split]; apply vector_to_midi_events_key; reflexivity.
  - intros s v Hs.
    unfold vector_to_midi_events, _key_check, status_int. cbn [bind].
    now rewrite (uint8_of_pyint_overflow s Hs).
Qed.

Lemma no_range_check_and_encode_total_witness :
  chord_to_velocity_vector
    {| chord_pitches := [1]; chord_volume_velocity := Some (inject_Z 127) |}
  = Ok [inject_Z 127] /\
  vector_to_midi_events (KeyObj 0x90) [inject_Z 127]
  = Ok (map (event_of 0x90 [inject_Z 127]) (flatnonzero [inject_Z 127])) /\
  vector_to_midi_events (KeyObj 0x190) [1%Q] = Raise OverflowError.
Proof.
  split; [|split].
  - apply (proj1 no_range_check_and_encode_total (inject_Z 127)).
    exists 127. split; [lia | reflexivity].
  - apply (proj1 (proj2 no_range_check_and_encode_total)). lia.
  - apply (proj2 (proj2 (proj2 no_range_check_and_encode_total))).
    right. lia.
Defined.

(** C7 fails as stated: a chord of the MIDI velocity 64, where the
    encoding expects a fraction of 1, is turned into a vector without any
    error, and the error comes at no later time either: the vector is
    encoded, as the byte 192, the low eight bits of [64 * 127]. *)
Lemma out_of_range_velocity_accepted :
  music21_velocity 64%Q /\
  chord_to_velocity_vector
    {| chord_pitches := [1]; chord_volume_velocity := Some 64%Q |}
  = Ok [64%Q] /\
  vector_to_midi_events (KeyObj 0x90) [64%Q] = Ok [Event 0x90 0 192] /\
  ~ (exists e : py_error,
       chord_to_velocity_vector
         {| chord_pitches := [1]; chord_volume_velocity := Some 64%Q |}
       = Raise e) /\
  ~ (exists e : py_error,
       vector_to_midi_events (KeyObj 0x90) [64%Q] = Raise e).
Proof.
  assert (E : vector_to_midi_events (KeyObj 0x90) [64%Q]
              = Ok [Event 0x90 0 192]) by (vm_compute; reflexivity).
  split; [exists 64; split; [lia | reflexivity]|].
  split; [reflexivity|]. split; [exact E|]. split.
  - intros (e & He). discriminate He.
  - intros (e & He). rewrite E in He. discriminate He.
Qed.

(** C9 at a chord of three pitches.  [[60; 64; 67]] is a draw of three
    pitches without replacement from the MIDI range, and
    [random_velocity_vector] raises an IndexError on it instead of
    returning a vector with three nonzero entries, whatever velocity
    music21 reports for the chord. *)
Theorem random_velocity_vector_three_pitches_raises
    (Chord_volume_velocity : list Note -> option Q)
    (randint_outcome : nat -> Z) (velocity : option Q) :
  choice_ok (arange 0 128) 3 false [60; 64; 67] = true /\
  random_velocity_vector Chord_volume_velocity
    {| choice_outcome := [60; 64; 67]; randint_outcome := randint_outcome |}
    3 (KeyStr "midi") velocity VELOCITY_LIMS
  = Raise IndexError.
Proof.
  split; [vm_compute; reflexivity|].
  unfold random_velocity_vector, random_chord.
  change (_key_check PITCH_RANGES (KeyStr "midi") (Some lower))
    with (@Found (list Z) (list Z) (arange 0 128)).
  cbn [population bind choice_outcome].
  change (random_choice (arange 0 128) 3 (negb true) [60; 64; 67])
    with (Ok [60; 64; 67]).
  cbn [bind length seq combine map].
  assert (Hnotes : forall k p,
            random_note 0 (randint_outcome k) (Some p) (KeyStr "full")
              velocity VELOCITY_LIMS
            = Ok {| note_pitch := Note_pitch_midi p;
                    note_velocity :=
                      Volume_velocity
                        match velocity with
                        | None => inject_Z (randint_outcome k)
                        | Some v => v
                        end |})
    by (intros k p; destruct velocity; reflexivity).
  rewrite !Hnotes. cbn [result_all bind].
  rewrite chord_to_velocity_vector_setitem.
  apply setitem_list_out_of_range. exists 59. split.
  - cbn. left. reflexivity.
  - cbn. lia.
Qed.

End SequencerFacts.

(** * Properties of the capture loop *)

Module CaptureFacts.
Import Numpy Sequencer NnFft.

Lemma process_disabled (inports : list block) (st : state) :
  note_toggle st = false -> process inports st = st.
Proof. intros H. unfold process. now rewrite H. Qed.

Lemma process_length (inports : list block) (st : state) :
  length (buffers (process inports st))
  = (length (buffers st) + if note_toggle st then 1 else 0)%nat.
Proof.
  unfold process. destruct (note_toggle st); cbn.
  - now rewrite length_app.
  - lia.
Qed.

Lemma process_frame (inports : list block) (st : state) :
  note_toggle st = true ->
  buffers (process inports st)
  = buffers st ++ [buffer_ (process inports st)] /\
  length (buffer_ (process inports st)) = length (buffer_ st) /\
  (length (buffer_ st) = channels ->
   nth 0 (buffer_ (process inports st)) [] = nth 0 inports []).
Proof.
  intros H. unfold process. rewrite H.
  destruct (buffer_ st) as [|b0 [|b1 b]]; cbn;
    (split; [reflexivity|]); (split; [reflexivity|]);
    intros Hlen; try discriminate Hlen; reflexivity.
Qed.

Lemma process_control_state (inports : list block) (st : state) :
  note_toggle (process inports st) = note_toggle st /\
  recordings (process inports st) = recordings st /\
  cur (process inports st) = cur st /\
  events (process inports st) = events st /\
  midi_out (process inports st) = midi_out st /\
  clients_open (process inports st) = clients_open st /\
  pc (process inports st) = pc st.
Proof.
  unfold process. destruct (note_toggle st) eqn:H; cbn; rewrite ?H;
    repeat split; reflexivity.
Qed.


Lemma initial_nothing_stored (vectors : list (list Q)) : forall i r,
  map (fun v => {| pitch_vector := v; rec_buffers := None |}) vectors !! i
  = Some r ->
  rec_buffers r = None.
Proof.
  induction vectors as [|v vectors IH]; intros [|i] r H; cbn in H;
    try discriminate H.
  - now injection H as <-.
  - now apply IH with i.
Qed.

Section Script.

Variable to_midi_note_events : list Q -> list event * list event.

Abbreviation control := (NnFft.control to_midi_note_events).
Abbreviation step := (NnFft.step to_midi_note_events).
Abbreviation run := (NnFft.run to_midi_note_events).

Lemma run_app (s1 s2 : list occurrence) (st : state) :
  run (s1 ++ s2) st = run s2 (run s1 st).
Proof. apply fold_left_app. Qed.

Lemma run_callbacks_disabled (input : list (list block)) : forall st,
  note_toggle st = false -> run (map Callback input) st = st.
Proof.
  induction input as [|inports input IH]; intros st H; [reflexivity|].
  cbn [map NnFft.run fold_left NnFft.step].
  destruct (clients_open st); [rewrite process_disabled by exact H|];
    now apply IH.
Qed.


Lemma step_last_captured (st : state) (o : occurrence) :
  last_captured st -> last_captured (step st o).
Proof.
  intros H. destruct o as [|inports|]; cbn [NnFft.step].
  - unfold NnFft.control.
    destruct (pc st); try exact H.
    + destruct (recordings st !! cur st); exact H.
    + destruct (keep_waiting st); exact H.
    + left. reflexivity.
  - destruct (clients_open st); [|exact H].
    destruct (note_toggle st) eqn:Ht.
    + right. exists (buffers st). now apply process_frame.
    + now rewrite process_disabled.
  - destruct (in_try (pc st)); exact H.
Qed.

Lemma run_last_captured (schedule : list occurrence) : forall st,
  last_captured st -> last_captured (run schedule st).
Proof.
  induction schedule as [|o schedule IH]; intros st H; [exact H|].
  cbn [NnFft.run fold_left]. apply IH. now apply step_last_captured.
Qed.




Lemma control_waiting (st : state) :
  pc st = L86 ->
  control st = if keep_waiting st then st else goto L90 st.
Proof. intros H. unfold NnFft.control. now rewrite H. Qed.

Lemma keep_waiting_false (st : state) :
  keep_waiting st = false <->
  (10 <= length (buffers st))%nat /\ any (nth 0 (buffer_ st) []) = false.
Proof.
  unfold keep_waiting. rewrite orb_false_iff, Nat.ltb_ge. tauto.
Qed.

Lemma control_exit_iff (st : state) :
  pc st = L86 ->
  (pc (control st) = L90 <-> keep_waiting st = false).
Proof.
  intros H. rewrite control_waiting by exact H.
  destruct (keep_waiting st); cbn.
  - rewrite H. split; discriminate.
  - tauto.
Qed.

(** While fewer than ten blocks have been appended, the loop goes on,
    whatever the blocks hold. *)
Lemma scripted_waiting (input : list (list block)) : forall st,
  pc st = L86 -> note_toggle st = true -> clients_open st = true ->
  (length (buffers st) + length input < 10)%nat ->
  let st' := run (scripted input) st in
  pc st' = L86 /\ note_toggle st' = true /\ clients_open st' = true /\
  length (buffers st') = (length (buffers st) + length input)%nat /\
  length (buffer_ st') = length (buffer_ st).
Proof.
  induction input as [|inports input IH]; intros st Hpc Ht Hc Hlen.
  - cbn. repeat split; try assumption. lia.
  - cbn [scripted flat_map app NnFft.run fold_left NnFft.step].
    rewrite Hc.
    destruct (process_control_state inports st)
      as (Ht' & _ & _ & _ & _ & Hc' & Hpc').
    destruct (process_frame inports st Ht) as (_ & Hb & _).
    pose proof (process_length inports st) as Hl. rewrite Ht in Hl.
    cbn [length] in Hlen.
    assert (Hwait : keep_waiting (process inports st) = true).
    { unfold keep_waiting. apply orb_true_iff. right.
      apply Nat.ltb_lt. lia. }
    rewrite control_waiting, Hwait by congruence.
    destruct (IH (process inports st)) as (H1 & H2 & H3 & H4 & H5);
      try congruence; [lia|].
    unfold scripted, NnFft.run in *.
    repeat split; try assumption; cbn [length]; lia.
Qed.

(** A statement that touches neither the shape of [buffer_] nor the
    clients, and does not lead to line 85 or 86. *)
Ltac globals_kept Hshape Hopen :=
  cbn; split; [exact Hshape|];
  split; [intros _; apply Hopen; discriminate|];
  let H := fresh in intros [H|H]; discriminate H.

Lemma step_globals_ok (st : state) (o : occurrence) :
  globals_ok st -> globals_ok (step st o).
Proof.
  unfold globals_ok. intros (Hshape & Hopen & Hon).
  destruct o as [|inports|]; cbn [NnFft.step].
  - unfold NnFft.control. destruct (pc st) eqn:Hpc;
      try (rewrite Hpc; tauto).
    + destruct (recordings st !! cur st); globals_kept Hshape Hopen.
    + cbn. split; [exact Hshape|]. split; [|reflexivity].
      intros _; apply Hopen; discriminate.
    + cbn. split; [exact Hshape|].
      split; [intros _; apply Hopen; discriminate|].
      intros _. apply Hon. now left.
    + destruct (keep_waiting st); [rewrite Hpc; tauto|].
      globals_kept Hshape Hopen.
    + globals_kept Hshape Hopen.
    + globals_kept Hshape Hopen.
    + globals_kept Hshape Hopen.
    + globals_kept Hshape Hopen.
  - destruct (clients_open st) eqn:Hc; [|rewrite Hc; tauto].
    destruct (process_control_state inports st)
      as (-> & _ & _ & _ & _ & -> & ->).
    split; [|tauto].
    destruct (note_toggle st) eqn:Ht.
    + destruct (process_frame inports st Ht) as (_ & -> & _).
      exact Hshape.
    + now rewrite process_disabled.
  - destruct (in_try (pc st)); cbn;
      (split; [exact Hshape|]);
      (split; [intros H; now elim H|]);
      intros [H|H]; discriminate H.
Qed.

Lemma run_globals_ok (schedule : list occurrence) : forall st,
  globals_ok st -> globals_ok (run schedule st).
Proof.
  induction schedule as [|o schedule IH]; intros st H; [exact H|].
  cbn [NnFft.run fold_left]. apply IH. now apply step_globals_ok.
Qed.

Lemma initial_globals_ok vectors garbage :
  length garbage = channels -> globals_ok (initial vectors garbage).
Proof.
  intros H. unfold globals_ok. cbn. split; [exact H|].
  split; [reflexivity|]. intros [Hpc|Hpc]; discriminate Hpc.
Qed.

Lemma scripted_capture_closes
    (input : list (list block)) (quiet : list block) (st : state) :
  pc st = L86 -> note_toggle st = true -> clients_open st = true ->
  length (buffer_ st) = channels -> buffers st = [] ->
  length input = 9%nat -> any (nth 0 quiet []) = false ->
  (forall k, (k < 10)%nat ->
     pc (run (scripted (firstn k (input ++ [quiet]))) st) = L86) /\
  pc (run (scripted (input ++ [quiet])) st) = L90 /\
  length (buffers (run (scripted (input ++ [quiet])) st)) = 10%nat.
Proof.
  intros Hpc Ht Hc Hshape Hb Hlen Hquiet.
  split; [|].
  + intros k Hk.
    destruct (scripted_waiting (firstn k (input ++ [quiet])) st Hpc Ht Hc)
      as (H1 & _); [|exact H1].
    rewrite Hb, length_firstn. cbn. lia.
  + unfold scripted. rewrite flat_map_app. fold (scripted input).
    rewrite run_app.
    destruct (scripted_waiting input st Hpc Ht Hc)
      as (H1 & H2 & H3 & H4 & H5); [rewrite Hb; cbn; lia|].
    set (st9 := run (scripted input) st) in *.
    cbn [flat_map app NnFft.run fold_left NnFft.step].
    rewrite H3.
    destruct (process_control_state quiet st9)
      as (_ & _ & _ & _ & _ & _ & Hpc').
    destruct (process_frame quiet st9 H2) as (_ & _ & Hch0).
    pose proof (process_length quiet st9) as Hl. rewrite H2 in Hl.
    rewrite Hb in H4. cbn [length] in H4.
    assert (Hstop : keep_waiting (process quiet st9) = false).
    { apply keep_waiting_false. split; [lia|].
      rewrite Hch0 by congruence. exact Hquiet. }
    rewrite control_waiting, Hstop by congruence.
    cbn. split; [reflexivity | lia].
Qed.


(** C8, as the code has it.  When the loop of line 86 has been left,
    the sink is disabled first ([note_toggle] is false while nothing
    more has been sent), then the note-off events are sent, then the
    buffers are stored in the recording; calls of [process] in between
    change nothing. *)
Theorem close_disables_then_sends_note_off_then_stores
    (st : state) (idle1 idle2 : list (list block)) :
  pc st = L90 ->
  let s1 := control st in
  let s2 := control (run (map Callback idle1) s1) in
  let s3 := control (run (map Callback idle2) s2) in
  (note_toggle s1 = false /\ midi_out s1 = midi_out st /\
   recordings s1 = recordings st) /\
  (note_toggle s2 = false /\
   midi_out s2 = midi_out st ++ [send_events (snd (events st))] /\
   recordings s2 = recordings st) /\
  (note_toggle s3 = false /\ midi_out s3 = midi_out s2 /\
   recordings s3 = store st /\ pc s3 = L93).
Proof.
  intros Hpc s1 s2 s3.
  assert (E1 : s1 = goto L91 (set_note_toggle false st)).
  { unfold s1, NnFft.control. now rewrite Hpc. }
  assert (E2 : s2 = goto L92 (call_midi (send_events (snd (events st))) s1)).
  { unfold s2. rewrite run_callbacks_disabled by (rewrite E1; reflexivity).
    unfold NnFft.control. rewrite E1. reflexivity. }
  assert (E3 : s3 = goto L93 (set_recordings (store s2) s2)).
  { unfold s3. rewrite run_callbacks_disabled
      by (rewrite E2, E1; reflexivity).
    unfold NnFft.control. rewrite E2. reflexivity. }
  split; [rewrite E1; cbn; auto|].
  split; [rewrite E2, E1; cbn; auto|].
  rewrite E3. cbn. split; [rewrite E2, E1; reflexivity|].
  split; [reflexivity|]. split; [|reflexivity].
  rewrite E2, E1. reflexivity.
Qed.


End Script.


Lemma close_disables_then_sends_note_off_then_stores_witness :
  let st := run onoff_events
              ([Control; Control; Control]
               ++ scripted (repeat [[0%Q]; [0%Q]] 10))
              (initial [[0%Q; 1%Q]] [[0%Q]; [0%Q]]) in
  note_toggle (control onoff_events st) = false /\
  midi_out (control onoff_events st) = midi_out st /\
  recordings (control onoff_events st) = recordings st.
Proof.
  exact (proj1 (close_disables_then_sends_note_off_then_stores onoff_events
           (run onoff_events
              ([Control; Control; Control]
               ++ scripted (repeat [[0%Q]; [0%Q]] 10))
              (initial [[0%Q; 1%Q]] [[0%Q]; [0%Q]]))
           [] [] eq_refl)).
Defined.

(** C8 fails as stated: right after the loop is left the sink is
    disabled, and the note-off events of the recording have not been
    sent. *)
Lemma sink_disabled_before_note_off :
  let st := run onoff_events
              ([Control; Control; Control]
               ++ scripted (repeat [[0%Q]; [0%Q]] 10))
              (initial [[0%Q; 1%Q]] [[0%Q]; [0%Q]]) in
  let s1 := control onoff_events st in
  pc st = L90 /\
  note_toggle s1 = false /\
  snd (events s1) = [Event 0x80 1 127] /\
  midi_out s1 = [send_events [Event 0x90 1 127]] /\
  ~ In (send_events (snd (events s1))) (midi_out s1).
Proof.
  vm_compute. repeat split; try reflexivity.
  intros [H | []]. discriminate H.
Qed.



End CaptureFacts.

(** * Further properties of the codec *)

Module CodecFacts.
Import Numpy Sequencer SequencerNotes SequencerFacts.





(** X2.  A status passed by a name of ASCII characters that is, once in
    upper case, a key of [STATUS_BYTES], gives the events of the byte
    [STATUS_BYTES] holds for it, however the name mixes the cases. *)
Theorem vector_to_midi_events_by_name
    (name : string) (b : Z) (v : list Q) :
  is_ascii_str name = true ->
  dict_get STATUS_BYTES (apply_case upper name) = Some b ->
  vector_to_midi_events (KeyStr name) v
  = vector_to_midi_events (KeyObj b) v.
Proof.
  intros _ Hb.
  rewrite (vector_to_midi_events_int b v (status_bytes_are_bytes _ _ Hb)).
  now apply vector_to_midi_events_key.
Qed.

Lemma vector_to_midi_events_by_name_witness :
  vector_to_midi_events (KeyStr "Note_On") [0%Q; 1%Q]
  = vector_to_midi_events (KeyObj 0x90) [0%Q; 1%Q].
Proof.
  apply (vector_to_midi_events_by_name "Note_On" 0x90 [0%Q; 1%Q]).
  - reflexivity.
  - reflexivity.
Defined.

(** *** Vectors of chords and notes *)

Lemma normalize_index_outside (len : nat) (i : Z) :
  Z.of_nat len <= i \/ i < - Z.of_nat len ->
  normalize_index len i = Raise IndexError.
Proof.
  intros H. unfold normalize_index.
  destruct (0 <=? i) eqn:H0, (i <? Z.of_nat len) eqn:H1,
           (- Z.of_nat len <=? i) eqn:H2, (i <? 0) eqn:H3;
    cbn; try reflexivity; lia.
Qed.

Lemma setitem_list_outside (idx : list Z) : forall (a : list Q) (x : Q),
  (exists i, In i idx /\
             (Z.of_nat (length a) <= i \/ i < - Z.of_nat (length a))) ->
  setitem_list a idx x = Raise IndexError.
Proof.
  induction idx as [|j idx IH]; intros a x (i & Hin & Hi).
  - destruct Hin.
  - cbn [setitem_list]. unfold bind.
    destruct (normalize_index (length a) j) as [n|e] eqn:Hn.
    + destruct Hin as [->|Hin].
      * rewrite normalize_index_outside in Hn by exact Hi. discriminate.
      * apply IH. exists i. split; [exact Hin|].
        now rewrite length_insert.
    + now rewrite (normalize_index_error _ _ _ Hn).
Qed.

Lemma setitem_list_single (idx : list Z) : forall (a0 x : Q),
  (forall i, In i idx -> i = -1 \/ i = 0) ->
  setitem_list [a0] idx x = Ok [match idx with [] => a0 | _ => x end].
Proof.
  induction idx as [|i idx IH]; intros a0 x H; [reflexivity|].
  cbn [setitem_list].
  assert (Hn : normalize_index (length [a0]) i = Ok 0%nat).
  { destruct (H i (or_introl eq_refl)) as [->| ->]; reflexivity. }
  rewrite Hn. cbn [bind]. cbn [insert list_insert].
  rewrite IH by (intros j Hj; apply H; now right).
  now destruct idx.
Qed.

(** X3.  [chord_to_velocity_vector] returns exactly for the chords whose
    pitches are all 0 or 1: the vector has one entry, the velocity of the
    chord (0 for a chord without pitches), so that the pitches 0 and 1
    of one chord fall into the same entry.  A chord with any other pitch
    raises an IndexError. *)
Theorem chord_to_velocity_vector_one_entry (chord : Chord) :
  ((forall p, In p (chord_pitches chord) -> p = 0 \/ p = 1) ->
   chord_to_velocity_vector chord
   = Ok [match chord_pitches chord with
         | [] => 0%Q
         | _ => match chord_volume_velocity chord with
                | None => 1%Q
                | Some c => c
                end
         end]) /\
  ((exists p, In p (chord_pitches chord) /\ (p < 0 \/ 2 <= p)) ->
   chord_to_velocity_vector chord = Raise IndexError).
Proof.
  rewrite chord_to_velocity_vector_setitem. split.
  - intros H. rewrite setitem_list_single.
    + now destruct (chord_pitches chord).
    + intros i Hi. apply in_map_iff in Hi. destruct Hi as (p & <- & Hp).
      destruct (H p Hp) as [->| ->]; [now left | now right].
  - intros (p & Hp & Hout). apply setitem_list_outside.
    exists (p - 1). split.
    + apply in_map_iff. exists p. split; [reflexivity | exact Hp].
    + cbn. lia.
Qed.

Lemma chord_to_velocity_vector_one_entry_witness :
  chord_to_velocity_vector
    {| chord_pitches := [0; 1]; chord_volume_velocity := None |}
  = Ok [1%Q] /\
  chord_to_velocity_vector
    {| chord_pitches := [1; -1]; chord_volume_velocity := None |}
  = Raise IndexError.
Proof.
  split.
  - apply (proj1 (chord_to_velocity_vector_one_entry
                    {| chord_pitches := [0; 1];
                       chord_volume_velocity := None |})).
    cbn. intros p [<-|[<-|[]]]; [now left | now right].
  - apply (proj2 (chord_to_velocity_vector_one_entry
                    {| chord_pitches := [1; -1];
                       chord_volume_velocity := None |})).
    exists (-1). cbn. split; [right; now left | lia].
Defined.

Lemma chord_to_velocity_vector_single_note
    (Chord_volume_velocity : list Note -> option Q) (note : Note) :
  (note_pitch note = 0 \/ note_pitch note = 1 ->
   chord_to_velocity_vector (Chord_of_notes Chord_volume_velocity [note])
   = Ok [match Chord_volume_velocity [note] with
         | None => 1%Q
         | Some c => c
         end]) /\
  (note_pitch note < 0 \/ 2 <= note_pitch note ->
   chord_to_velocity_vector (Chord_of_notes Chord_volume_velocity [note])
   = Raise IndexError).
Proof.
  rewrite chord_to_velocity_vector_setitem. cbn [Chord_of_notes
    chord_pitches chord_volume_velocity map]. split.
  - intros Hp. rewrite setitem_list_single; [reflexivity|].
    intros i [<-|[]]. lia.
  - intros Hp. apply setitem_list_outside.
    exists (note_pitch note - 1). split; [now left | cbn; lia].
Qed.

Section Music21.

Variable Chord_volume_velocity : list Note -> option Q.

(** X4.  [note_to_midi_onoff] returns for the notes of pitch 0 or 1 only,
    and the events it returns carry the pitch byte 0, not the pitch of the
    note: one note-on and one note-off event with the same velocity byte,
    or no event at all when the velocity of the chord is zero.  A note of
    any other pitch raises an IndexError. *)
Theorem note_to_midi_onoff_pitch_byte (note : Note) :
  let c := match Chord_volume_velocity [note] with
           | None => 1%Q
           | Some c => c
           end in
  (note_pitch note = 0 \/ note_pitch note = 1 ->
   note_to_midi_onoff Chord_volume_velocity note
   = Ok (if is_nonzero c
         then ([Event 0x90 0
                  (uint8_of_float (float64_mul c (inject_Z VELOCITY_HI)))],
               [Event 0x80 0
                  (uint8_of_float (float64_mul c (inject_Z VELOCITY_HI)))])
         else ([], []))) /\
  (note_pitch note < 0 \/ 2 <= note_pitch note ->
   note_to_midi_onoff Chord_volume_velocity note = Raise IndexError).
Proof.
  intros c. unfold note_to_midi_onoff, note_to_velocity_vector. split.
  - intros Hp.
    rewrite (proj1 (chord_to_velocity_vector_single_note _ _)) by exact Hp.
    fold c. cbn [bind].
    change (dict_item STATUS_BYTES "NOTE_ON") with (@Ok Z 0x90).
    change (dict_item STATUS_BYTES "NOTE_OFF") with (@Ok Z 0x80).
    cbn [bind]. rewrite !vector_to_midi_events_int by lia. cbn [bind].
    unfold flatnonzero. cbn [flatnonzero_from].
    destruct (is_nonzero c); reflexivity.
  - intros Hp.
    rewrite (proj2 (chord_to_velocity_vector_single_note _ _)) by exact Hp.
    reflexivity.
Qed.

End Music21.

Lemma note_to_midi_onoff_pitch_byte_witness :
  note_to_midi_onoff (fun notes => option_map note_velocity (head notes))
    {| note_pitch := 1; note_velocity := 64%Q |}
  = Ok ([Event 0x90 0 192], [Event 0x80 0 192]) /\
  note_to_midi_onoff (fun notes => option_map note_velocity (head notes))
    {| note_pitch := 60; note_velocity := 64%Q |}
  = Raise IndexError.
Proof.
  split.
  - apply (proj1 (note_to_midi_onoff_pitch_byte
                    (fun notes => option_map note_velocity (head notes))
                    {| note_pitch := 1; note_velocity := 64%Q |})).
    right. reflexivity.
  - apply (proj2 (note_to_midi_onoff_pitch_byte
                    (fun notes => option_map note_velocity (head notes))
                    {| note_pitch := 60; note_velocity := 64%Q |})).
    right. cbn. lia.
Defined.

(** *** All notes off, for every range *)

Lemma nth_insert (a : list Q) : forall (i j : nat) (x d : Q),
  nth j (<[i := x]> a) d
  = if (i =? j)%nat && (j <? length a)%nat then x else nth j a d.
Proof.
  induction a as [|y a IH]; intros i j x d.
  - destruct i, j; cbn; try reflexivity.
    now rewrite andb_false_r.
  - destruct i as [|i], j as [|j]; cbn; try reflexivity.
    rewrite IH. reflexivity.
Qed.

Lemma fold_insert_nth (x d : Q) (idx : list nat) : forall (a : list Q) j,
  length (fold_left (fun acc i => <[i := x]> acc) idx a) = length a /\
  nth j (fold_left (fun acc i => <[i := x]> acc) idx a) d
  = if existsb (Nat.eqb j) idx && (j <? length a)%nat then x
    else nth j a d.
Proof.
  induction idx as [|i idx IH]; intros a j; cbn [fold_left existsb].
  - split; reflexivity.
  - destruct (IH (<[i := x]> a) j) as (Hlen & Hnth).
    rewrite length_insert in Hlen, Hnth. split; [exact Hlen|].
    rewrite Hnth, nth_insert.
    rewrite (Nat.eqb_sym i j).
    destruct (j =? i)%nat, (existsb (Nat.eqb j) idx),
             (j <? length a)%nat; reflexivity.
Qed.

Lemma seq_sorted (len : nat) : forall start,
  StronglySorted Nat.lt (seq start len).
Proof.
  induction len as [|len IH]; intros start; cbn [seq]; constructor.
  - apply IH.
  - apply List.Forall_forall. intros j Hj. apply in_seq in Hj.
    unfold Nat.lt. lia.
Qed.

Lemma sorted_ext (l1 : list nat) : forall l2,
  StronglySorted Nat.lt l1 -> StronglySorted Nat.lt l2 ->
  (forall x, In x l1 <-> In x l2) -> l1 = l2.
Proof.
  induction l1 as [|x l1 IH]; intros [|y l2] H1 H2 Hin.
  - reflexivity.
  - destruct (proj2 (Hin y) (or_introl eq_refl)).
  - destruct (proj1 (Hin x) (or_introl eq_refl)).
  - apply StronglySorted_inv in H1. destruct H1 as (H1 & Hx).
    apply StronglySorted_inv in H2. destruct H2 as (H2 & Hy).
    rewrite List.Forall_forall in Hx, Hy. unfold Nat.lt in Hx, Hy.
    assert (Hxy : x = y).
    { destruct (proj1 (Hin x) (or_introl eq_refl)) as [Heq|Hx2];
        [now symmetry|].
      destruct (proj2 (Hin y) (or_introl eq_refl)) as [Heq|Hy1];
        [exact Heq|].
      specialize (Hx _ Hy1). specialize (Hy _ Hx2). lia. }
    subst y. f_equal. apply IH; [exact H1 | exact H2 |].
    intros z. split; intros Hz.
    + destruct (proj1 (Hin z) (or_intror Hz)) as [Heq|Hz2]; [|exact Hz2].
      specialize (Hx _ Hz). lia.
    + destruct (proj2 (Hin z) (or_intror Hz)) as [Heq|Hz1]; [|exact Hz1].
      specialize (Hy _ Hz). lia.
Qed.

Lemma map_seq_from (s : Z) (len : nat) : forall start,
  0 <= s ->
  map (fun k => Z.to_nat (s + Z.of_nat k * 1)) (seq start len)
  = seq (Z.to_nat s + start) len.
Proof.
  induction len as [|len IH]; intros start Hs; cbn [seq map];
    [reflexivity|].
  rewrite IH by exact Hs. f_equal; [lia|]. f_equal. lia.
Qed.

Lemma seq_offset (len : nat) : forall a start,
  map (fun k => (a + k)%nat) (seq start len) = seq (a + start) len.
Proof.
  induction len as [|len IH]; intros a start; cbn [seq map];
    [reflexivity|].
  rewrite IH. f_equal. f_equal. lia.
Qed.

Lemma slice_indices_forward (lo hi : Z) (len : nat) :
  0 <= lo -> lo <= hi ->
  slice_indices (Some lo, hi, 1) len
  = Ok (seq (Z.to_nat (Z.min lo (Z.of_nat len)))
            (Z.to_nat (Z.min hi (Z.of_nat len) - Z.min lo (Z.of_nat len)))).
Proof.
  intros Hlo Hhi. unfold slice_indices.
  change (1 =? 0) with false. change (1 <? 0) with false. cbv iota.
  assert (Hclip : forall i, 0 <= i ->
            clip_index (Z.of_nat len) 1 i = Z.min i (Z.of_nat len)).
  { intros i Hi. unfold clip_index. change (1 <? 0) with false.
    destruct (i <? 0) eqn:E1; [lia|].
    destruct (Z.of_nat len <=? i) eqn:E2; lia. }
  rewrite !Hclip by lia. f_equal.
  set (a := Z.min lo (Z.of_nat len)). set (b := Z.min hi (Z.of_nat len)).
  assert (Hab : a <= b) by (unfold a, b; lia).
  assert (Ha : 0 <= a) by (unfold a; lia).
  destruct (a <? b) eqn:E.
  - rewrite Z.div_1_r, map_seq_from by exact Ha.
    rewrite Nat.add_0_r. f_equal. lia.
  - replace (b - a) with 0 by lia. reflexivity.
Qed.

Lemma flatnonzero_marked (lo n total : nat) :
  (lo + n <= total)%nat ->
  let v := fold_left (fun acc i => <[i := 1%Q]> acc) (seq lo n)
             (repeat 0%Q total) in
  length v = total /\
  flatnonzero v = seq lo n /\
  (forall j, In j (seq lo n) -> nth j v 0%Q = 1%Q).
Proof.
  intros Hfit v.
  assert (Hv : forall j,
            length v = total /\
            nth j v 0%Q
            = if existsb (Nat.eqb j) (seq lo n) && (j <? total)%nat
              then 1%Q else 0%Q).
  { intros j.
    destruct (fold_insert_nth 1%Q 0%Q (seq lo n) (repeat 0%Q total) j)
      as (Hlen & Hnth).
    rewrite repeat_length in Hlen, Hnth. split; [exact Hlen|].
    fold v in Hnth. rewrite Hnth.
    destruct (existsb (Nat.eqb j) (seq lo n) && (j <? total)%nat);
      [reflexivity|].
    destruct (Nat.lt_ge_cases j total) as [Hj|Hj].
    - apply nth_repeat_lt. exact Hj.
    - apply nth_overflow. now rewrite repeat_length. }
  assert (Hmark : forall j, In j (seq lo n) -> nth j v 0%Q = 1%Q).
  { intros j Hj. destruct (Hv j) as (_ & ->).
    assert (He : existsb (Nat.eqb j) (seq lo n) = true).
    { apply existsb_exists. exists j. split; [exact Hj|].
      apply Nat.eqb_refl. }
    apply in_seq in Hj.
    assert (Hlt : (j <? total)%nat = true) by (apply Nat.ltb_lt; lia).
    now rewrite He, Hlt. }
  split; [apply (Hv 0%nat)|]. split; [|exact Hmark].
  apply sorted_ext.
  - apply flatnonzero_from_sorted.
  - apply seq_sorted.
  - intros j. rewrite flatnonzero_In. split.
    + intros (Hj & Hnz). destruct (Hv j) as (_ & Hnth).
      destruct (existsb (Nat.eqb j) (seq lo n)) eqn:He.
      * apply existsb_exists in He. destruct He as (k & Hk & Hjk).
        apply Nat.eqb_eq in Hjk. now subst k.
      * cbn in Hnth. rewrite Hnth in Hnz. now elim Hnz.
    + intros Hj. rewrite (Hmark j Hj). destruct (Hv j) as (-> & _).
      apply in_seq in Hj. split; [lia|]. discriminate.
Qed.

(** X5.  With [midi_basic] true and the range given as a pair
    [(lo, hi)], [0 <= lo <= hi], [midi_all_notes_off] returns one NOTE_OFF
    event of velocity byte 127 for each pitch from [lo] up to, and without,
    the smaller of [hi] and 127, in ascending order: [hi] itself is left
    out, and no range reaches pitch 127. *)
Theorem midi_all_notes_off_pair_range (lo hi : Z) :
  0 <= lo -> lo <= hi ->
  midi_all_notes_off true (KeyObj [lo; hi])
  = Ok (map (fun p => Event 0x80 p 127) (arange lo (Z.min hi 127))).
Proof.
  intros Hlo Hhi. unfold midi_all_notes_off.
  cbn [_key_check]. change (zeros N_PITCHES) with (Ok (repeat 0%Q 127)).
  cbn [bind slice_args slice]. unfold setitem_slice.
  rewrite slice_indices_forward by assumption.
  rewrite repeat_length. cbn [bind].
  change (dict_item STATUS_BYTES "NOTE_OFF") with (@Ok Z 0x80).
  cbn [bind]. rewrite vector_to_midi_events_int by lia. f_equal.
  change (Z.of_nat 127) with 127.
  destruct (Z.le_gt_cases lo 127) as [Hle|Hgt].
  - replace (Z.min lo 127) with lo by lia.
    set (a := Z.to_nat lo).
    set (n := Z.to_nat (Z.min hi 127 - lo)).
    assert (Hfit : (a + n <= 127)%nat) by (unfold a, n; lia).
    destruct (flatnonzero_marked a n 127 Hfit) as (_ & Hnz & Hmark).
    rewrite Hnz. unfold arange. fold n.
    set (v := fold_left _ _ _) in *.
    replace (seq a n) with (map (fun k => (a + k)%nat) (seq 0 n))
      by (rewrite seq_offset; f_equal; lia).
    rewrite !map_map. apply map_ext_in. intros k Hk.
    apply in_seq in Hk. unfold event_of.
    rewrite Hmark by (apply in_seq; lia).
    unfold uint8_of_int. rewrite !Z.mod_small by (unfold a; lia).
    f_equal. unfold a. lia.
  - replace (Z.min lo 127) with 127 by lia.
    replace (Z.min hi 127) with 127 by lia.
    unfold arange. replace (Z.to_nat (127 - lo)) with 0%nat by lia.
    reflexivity.
Qed.

Lemma midi_all_notes_off_pair_range_witness :
  midi_all_notes_off true (KeyObj [21; 200])
  = Ok (map (fun p => Event 0x80 p 127) (arange 21 (Z.min 200 127))).
Proof. apply midi_all_notes_off_pair_range; lia. Defined.

(** X6.  With [midi_basic] true and the range given by name,
    [midi_all_notes_off] raises a TypeError, whatever the name: a name
    that is a key of [PITCH_RANGES] stands for more than three pitches,
    and any other name is no sequence of bounds. *)
Theorem midi_all_notes_off_named_range_raises (name : string) :
  midi_all_notes_off true (KeyStr name) = Raise TypeError.
Proof.
  unfold midi_all_notes_off, _key_check.
  change (zeros N_PITCHES) with (Ok (repeat 0%Q 127)).
  change PITCH_RANGES
    with [("midi"%string, arange 0 128); ("piano"%string, arange 21 109)].
  cbn [dict_get].
  destruct (String.eqb "midi" (apply_case lower name));
    [reflexivity|].
  destruct (String.eqb "piano" (apply_case lower name)); reflexivity.
Qed.

(** *** Random notes and chords *)

Lemma Volume_velocity_kept (v : Q) :
  music21_velocity v -> Volume_velocity v = v.
Proof.
  intros (k & Hk & ->). unfold Volume_velocity.
  destruct (Qle_bool (inject_Z k) 0) eqn:H0.
  - apply Qle_bool_iff in H0. change 0%Q with (inject_Z 0) in H0.
    rewrite <- Zle_Qle in H0. now replace k with 0 by lia.
  - destruct (Qle_bool (inject_Z 127) (inject_Z k)) eqn:H1; [|reflexivity].
    apply Qle_bool_iff in H1. rewrite <- Zle_Qle in H1.
    now replace k with 127 by lia.
Qed.

Lemma random_randint_room (lims : Z * Z) (drawn : Z) :
  fst lims < snd lims -> random_randint lims drawn = Ok drawn.
Proof.
  intros H. unfold random_randint. now rewrite (proj2 (Z.ltb_lt _ _) H).
Qed.

Lemma random_randint_no_room (lims : Z * Z) (drawn : Z) :
  snd lims <= fst lims -> random_randint lims drawn = Raise ValueError.
Proof.
  intros H. unfold random_randint. now rewrite (proj2 (Z.ltb_ge _ _) H).
Qed.

(** X7.  [random_note] called without a pitch, the range named by a
    string of ASCII characters, draws a pitch from the range.  It raises
    a ValueError when the string is no key of [PITCH_RANGES], as the
    default, ['full'], is.  When the string is a key, in any case, and
    the velocity is given or the limits leave room for one, it returns a
    note; the pitch of the note is the pitch drawn from 12 on, and 60
    more than the pitch drawn below 12; the velocity is the one given or
    drawn when it is an integer from 0 to 127.  Without a velocity and
    with limits that leave no room, it raises a ValueError whatever the
    other arguments. *)
Theorem random_note_range_name
    (picked drawn : Z) (name : string) (velocity : option Q)
    (velocity_lims : Z * Z) :
  is_ascii_str name = true ->
  (dict_get PITCH_RANGES (apply_case lower name) = None ->
   random_note picked drawn None (KeyStr name) velocity velocity_lims
   = Raise ValueError) /\
  (apply_case lower name = "midi"%string \/
   apply_case lower name = "piano"%string ->
   0 <= picked <= 127 ->
   (velocity = None -> fst velocity_lims < snd velocity_lims) ->
   exists note,
     random_note picked drawn None (KeyStr name) velocity velocity_lims
     = Ok note /\
     note_pitch note = (if picked <? 12 then picked + 60 else picked) /\
     (forall v, velocity = Some v -> music21_velocity v ->
                note_velocity note = v) /\
     (velocity = None -> 0 <= drawn <= 127 ->
      note_velocity note = inject_Z drawn)) /\
  random_note picked drawn None (KeyStr "full") velocity velocity_lims
  = Raise ValueError /\
  (snd velocity_lims <= fst velocity_lims ->
   forall pitch pitch_range,
     random_note picked drawn pitch pitch_range None velocity_lims
     = Raise ValueError).
Proof.
  intros _. split; [|split; [|split]].
  - intros H. unfold random_note, _key_check.
    now rewrite H.
  - intros H _ Hlims.
    assert (Hpitch : forall k,
              (let* pitch :=
                 (let* a := population
                              (@_key_check _ (list Z) PITCH_RANGES
                                 (KeyStr name) (Some lower)) in
                  random_choice_one a picked) in k pitch)
              = k picked :> result Note).
    { intros k. unfold _key_check.
      destruct H as [-> | ->]; reflexivity. }
    unfold random_note. rewrite Hpitch.
    destruct velocity as [v|].
    + cbn [bind]. eexists. split; [reflexivity|].
      cbn [note_pitch note_velocity]. split; [reflexivity|]. split.
      * intros v' Hv' Hvel. injection Hv' as <-.
        now apply Volume_velocity_kept.
      * discriminate.
    + rewrite (random_randint_room _ _ (Hlims eq_refl)). cbn [bind].
      eexists. split; [reflexivity|].
      cbn [note_pitch note_velocity]. split; [reflexivity|]. split.
      * discriminate.
      * intros _ Hd. apply Volume_velocity_kept. now exists drawn.
  - reflexivity.
  - intros Hlims pitch pitch_range.
    unfold random_note. rewrite (random_randint_no_room _ _ Hlims).
    destruct pitch as [p|]; [reflexivity|].
    destruct (_key_check PITCH_RANGES pitch_range (Some lower))
      as [arr | [s' | seq']]; cbn [population bind]; try reflexivity.
    + destruct arr; reflexivity.
    + destruct seq'; reflexivity.
Qed.

Lemma random_note_range_name_witness :
  (exists note,
     random_note 1 64 None (KeyStr "MIDI") None VELOCITY_LIMS = Ok note /\
     note_pitch note = 61 /\ note_velocity note = inject_Z 64) /\
  random_note 60 64 None (KeyStr "Organ") None VELOCITY_LIMS
  = Raise ValueError /\
  random_note 60 64 (Some 60) (KeyStr "midi") None (5, 5)
  = Raise ValueError.
Proof.
  split; [|split].
  - destruct (proj1 (proj2 (random_note_range_name 1 64 "MIDI" None
                              VELOCITY_LIMS eq_refl)))
      as (note & Hnote & Hpitch & _ & Hvel).
    + left. reflexivity.
    + lia.
    + intros _. reflexivity.
    + exists note. split; [exact Hnote|]. split; [exact Hpitch|].
      apply Hvel; [reflexivity | lia].
  - apply (proj1 (random_note_range_name 60 64 "Organ" None VELOCITY_LIMS
                    eq_refl)).
    reflexivity.
  - apply (proj2 (proj2 (proj2 (random_note_range_name 60 64 "midi" None
                                  (5, 5) eq_refl)))).
    cbn. lia.
Defined.



Section Music21.

Variable Chord_volume_velocity : list Note -> option Q.


End Music21.


End CodecFacts.

(** * Properties of the input and output helpers *)

Module IodataFacts.
Import Numpy Iodata.

Lemma concat_repeat_S {A : Type} (l : list A) (n : nat) :
  concat (repeat l (S n)) = l ++ concat (repeat l n).
Proof. reflexivity. Qed.

Lemma run_pass_accepted {E : Type} (events : list (E * Q)) :
  Forall (fun ep => (0 <= snd ep)%Q) events ->
  run_pass events = (send_pass events, Ok tt).
Proof.
  induction 1 as [|[event pause] events Hp _ IH]; [reflexivity|].
  cbn [run_pass]. cbn [snd] in Hp.
  rewrite (proj2 (Qle_bool_iff 0 pause) Hp), IH. reflexivity.
Qed.

Lemma run_pass_refused {E : Type} (before after : list (E * Q))
    (event : E) (pause : Q) :
  Forall (fun ep => (0 <= snd ep)%Q) before -> (pause < 0)%Q ->
  run_pass (before ++ (event, pause) :: after)
  = (send_pass before ++ [send_message event], Raise ValueError).
Proof.
  intros Hbefore Hpause.
  induction Hbefore as [|[e p] before Hp _ IH].
  - cbn [app run_pass send_pass flat_map].
    destruct (Qle_bool 0 pause) eqn:H0; [|reflexivity].
    apply Qle_bool_iff in H0. now apply Qle_not_lt in H0.
  - cbn [app run_pass]. cbn [snd] in Hp.
    rewrite (proj2 (Qle_bool_iff 0 p) Hp), IH. reflexivity.
Qed.

Lemma send_events_accepted {E : Type} (events : list (E * Q)) :
  Forall (fun ep => (0 <= snd ep)%Q) events ->
  forall (fuel : nat) (loop : Z) (done : list (port_action E)),
    (Z.to_nat (Z.max loop 1) <= fuel)%nat ->
    send_events fuel events loop done
    = Some (done
            ++ concat (repeat (send_pass events) (Z.to_nat (Z.max loop 1))),
            Ok tt).
Proof.
  intros Hev.
  induction fuel as [|fuel IH]; intros loop done Hfuel; [lia|].
  cbn [send_events]. rewrite (run_pass_accepted events Hev).
  destruct (1 <? loop) eqn:Hloop.
  - apply Z.ltb_lt in Hloop. rewrite IH by lia.
    replace (Z.to_nat (Z.max loop 1))
      with (S (Z.to_nat (Z.max (loop - 1) 1))) by lia.
    now rewrite concat_repeat_S, app_assoc.
  - apply Z.ltb_ge in Hloop.
    replace (Z.to_nat (Z.max loop 1)) with 1%nat by lia.
    cbn [repeat concat]. now rewrite app_nil_r.
Qed.

(** X9.  When no pause is negative, [send_events] ends, and sends the
    events, each followed by its pause, as many times as [loop] says, and
    once when [loop] is 1 or less: a [loop] of 0 or below still sends them
    once.  With a negative pause it raises a ValueError in the first
    pass, whatever [loop] is: the events up to the one with that pause
    are sent, and nothing after it. *)
Theorem send_events_passes {E : Type}
    (fuel : nat) (events : list (E * Q)) (loop : Z)
    (done : list (port_action E)) :
  (Forall (fun ep => (0 <= snd ep)%Q) events ->
   (Z.to_nat (Z.max loop 1) <= fuel)%nat ->
   send_events fuel events loop done
   = Some (done
           ++ concat (repeat (send_pass events) (Z.to_nat (Z.max loop 1))),
           Ok tt)) /\
  (forall before after event pause,
     events = before ++ (event, pause) :: after ->
     Forall (fun ep => (0 <= snd ep)%Q) before -> (pause < 0)%Q ->
     (0 < fuel)%nat ->
     send_events fuel events loop done
     = Some (done ++ send_pass before ++ [send_message event],
             Raise ValueError)).
Proof.
  split.
  - intros Hev Hfuel. now apply send_events_accepted.
  - intros before after event pause -> Hbefore Hpause Hfuel.
    destruct fuel as [|fuel]; [lia|].
    cbn [send_events].
    now rewrite (run_pass_refused before after event pause Hbefore Hpause).
Qed.

Lemma send_events_passes_witness :
  send_events 1 [(144, 1%Q)] 0 []
  = Some ([send_message 144; sleep 1%Q], Ok tt) /\
  send_events 3 [(144, 1%Q); (128, (-1)%Q); (145, 1%Q)] 3 []
  = Some ([send_message 144; sleep 1%Q; send_message 128],
          Raise ValueError).
Proof.
  split.
  - apply (proj1 (send_events_passes 1 [(144, 1%Q)] 0 [])).
    + repeat constructor. discriminate.
    + cbn. lia.
  - apply (proj2 (send_events_passes 3
                    [(144, 1%Q); (128, (-1)%Q); (145, 1%Q)] 3 [])
             [(144, 1%Q)] [(145, 1%Q)] 128 (-1)%Q).
    + reflexivity.
    + repeat constructor. discriminate.
    + reflexivity.
    + lia.
Defined.

Lemma unit_sample_range (x f : Z) :
  0 < f -> - f <= x < f ->
  (-1 <= inject_Z x / inject_Z f)%Q /\
  (inject_Z x / inject_Z f < 1)%Q /\
  (inject_Z x / inject_Z f * inject_Z f == inject_Z x)%Q.
Proof.
  intros Hf Hx.
  assert (Hpos : (0 < inject_Z f)%Q)
    by (change 0%Q with (inject_Z 0); now rewrite <- Zlt_Qlt).
  split; [|split].
  - apply Qle_shift_div_l; [exact Hpos|].
    change (-1)%Q with (inject_Z (-1)).
    rewrite <- inject_Z_mult, <- Zle_Qle. lia.
  - apply Qlt_shift_div_r; [exact Hpos|].
    rewrite Qmult_1_l, <- Zlt_Qlt. lia.
  - rewrite Qmult_comm. apply Qmult_div_r.
    intros H. rewrite H in Hpos. now apply Qlt_irrefl in Hpos.
Qed.

(** X10.  [unit_snd] with its default factor: an array of dtype [int16]
    or [int32] whose samples fit the dtype is scaled sample by sample to
    values from -1 on and below 1, from which the samples are recovered by
    the factor [2 ^ (bits - 1)]; an array of any other dtype raises a
    KeyError. *)
Theorem unit_snd_scales_to_unit_range (snd : wav_array) :
  (forall bits,
     dict_get SND_DTYPES (dtype_name snd) = Some bits ->
     Forall (fun x => - 2 ^ (bits - 1) <= x < 2 ^ (bits - 1)) (samples snd) ->
     exists out,
       unit_snd snd = Ok out /\
       Forall2 (fun q x =>
                  (-1 <= q)%Q /\ (q < 1)%Q /\
                  (q * inject_Z (2 ^ (bits - 1)) == inject_Z x)%Q)
               out (samples snd)) /\
  (dict_get SND_DTYPES (dtype_name snd) = None ->
   unit_snd snd = Raise KeyError).
Proof.
  split.
  - intros bits Hbits Hfit. unfold unit_snd, dict_item. rewrite Hbits.
    cbn [bind]. eexists. split; [reflexivity|].
    assert (Hf : 0 < 2 ^ (bits - 1)).
    { unfold SND_DTYPES in Hbits. cbn [dict_get] in Hbits.
      destruct (String.eqb "int16" (dtype_name snd));
        [injection Hbits as <-; reflexivity|].
      destruct (String.eqb "int32" (dtype_name snd));
        [injection Hbits as <-; reflexivity | discriminate]. }
    induction Hfit as [|x xs Hx Hxs IH]; cbn [map]; constructor.
    + now apply unit_sample_range.
    + exact IH.
  - intros H. unfold unit_snd, dict_item. now rewrite H.
Qed.

Lemma unit_snd_scales_to_unit_range_witness :
  (exists out,
     unit_snd {| dtype_name := "int16"; samples := [-32768; 0; 32767] |}
     = Ok out /\
     Forall2 (fun q x =>
                (-1 <= q)%Q /\ (q < 1)%Q /\
                (q * inject_Z (2 ^ (16 - 1)) == inject_Z x)%Q)
             out [-32768; 0; 32767]) /\
  unit_snd {| dtype_name := "uint8"; samples := [0; 255] |}
  = Raise KeyError.
Proof.
  split.
  - apply (proj1 (unit_snd_scales_to_unit_range
                    {| dtype_name := "int16";
                       samples := [-32768; 0; 32767] |}) 16).
    + reflexivity.
    + repeat constructor; cbn; lia.
  - apply (proj2 (unit_snd_scales_to_unit_range
                    {| dtype_name := "uint8"; samples := [0; 255] |})).
    reflexivity.
Defined.

End IodataFacts.

(** * Properties of whole executions of the capture loop *)

Module CaptureRunFacts.
Import Numpy Sequencer NnFft NnFftRuns CaptureFacts.

Lemma map_insert_same {A B : Type} (f : A -> B) (l : list A) :
  forall (i : nat) (r y : A),
    l !! i = Some r -> f y = f r -> map f (<[i := y]> l) = map f l.
Proof.
  induction l as [|x l IH]; intros [|i] r y Hl Hf; cbn in *;
    try discriminate Hl.
  - injection Hl as ->. now rewrite Hf.
  - f_equal. now apply IH with r.
Qed.

Lemma lookup_map {A B : Type} (f : A -> B) (l : list A) : forall (i : nat),
  map f l !! i = option_map f (l !! i).
Proof.
  induction l as [|x l IH]; intros [|i]; cbn; try reflexivity. apply IH.
Qed.

Lemma store_pitch_vectors (st : state) :
  map pitch_vector (store st) = map pitch_vector (recordings st).
Proof.
  unfold store. destruct (recordings st !! cur st) as [r|] eqn:Hr;
    [|reflexivity].
  now apply map_insert_same with r.
Qed.

Lemma process_captured (inports : list block) (st : state) :
  note_toggle st = true -> length (buffer_ st) = channels ->
  buffer_ (process inports st) = captured inports /\
  buffers (process inports st) = buffers st ++ [captured inports].
Proof.
  intros Ht Hshape. unfold process. rewrite Ht.
  destruct (buffer_ st) as [|b0 [|b1 [|b2 b]]]; try discriminate Hshape.
  split; reflexivity.
Qed.

Section Script.

Variable to_midi_note_events : list Q -> list event * list event.

Abbreviation control := (NnFft.control to_midi_note_events).
Abbreviation step := (NnFft.step to_midi_note_events).
Abbreviation run := (NnFft.run to_midi_note_events).

Lemma step_pitch_vectors (st : state) (o : occurrence) :
  map pitch_vector (recordings (step st o))
  = map pitch_vector (recordings st).
Proof.
  destruct o as [|inports|]; cbn [NnFft.step].
  - unfold NnFft.control. destruct (pc st); try reflexivity.
    + now destruct (recordings st !! cur st).
    + now destruct (keep_waiting st).
    + cbn. apply store_pitch_vectors.
  - destruct (clients_open st); [|reflexivity].
    now destruct (process_control_state inports st) as (_ & -> & _).
  - now destruct (in_try (pc st)).
Qed.

Lemma run_pitch_vectors (schedule : list occurrence) : forall st,
  map pitch_vector (recordings (run schedule st))
  = map pitch_vector (recordings st).
Proof.
  induction schedule as [|o schedule IH]; intros st; [reflexivity|].
  cbn [NnFft.run fold_left]. fold (run schedule (step st o)).
  now rewrite IH, step_pitch_vectors.
Qed.

(** X11.  Whatever the interleaving of statements, periods and
    interrupts, the recordings keep their number, their order and their
    pitch vectors: storing the buffers of a recording never touches a
    label. *)
Theorem pitch_vectors_kept
    (vectors : list (list Q)) (garbage : frame)
    (schedule : list occurrence) :
  map pitch_vector (recordings (run schedule (initial vectors garbage)))
  = vectors.
Proof.
  rewrite run_pitch_vectors. cbn [initial recordings].
  rewrite map_map. cbn [pitch_vector]. apply map_id.
Qed.

Lemma step_stored_long (st : state) (o : occurrence) :
  window st -> stored_long st -> stored_long (step st o).
Proof.
  intros Hw Hs. destruct o as [|inports|]; cbn [NnFft.step].
  - unfold NnFft.control. unfold window in Hw.
    destruct (pc st) eqn:Hpc; try exact Hs.
    + now destruct (recordings st !! cur st).
    + now destruct (keep_waiting st).
    + destruct Hw as (_ & Hten). intros i r fs Hr Hfs.
      cbn in Hr. unfold store in Hr.
      destruct (recordings st !! cur st) as [r0|] eqn:Hcur;
        [|now apply (Hs i r fs)].
      destruct (Nat.eq_dec (cur st) i) as [<-|Hne].
      * rewrite list_lookup_insert_eq in Hr
          by (apply lookup_lt_Some in Hcur; exact Hcur).
        injection Hr as <-. cbn in Hfs. injection Hfs as <-. exact Hten.
      * rewrite list_lookup_insert_ne in Hr by exact Hne.
        now apply (Hs i r fs).
  - destruct (clients_open st); [|exact Hs].
    intros i r fs Hr.
    destruct (process_control_state inports st) as (_ & Hrec & _).
    rewrite Hrec in Hr. now apply (Hs i r fs).
  - now destruct (in_try (pc st)).
Qed.

Lemma step_window (st : state) (o : occurrence) :
  window st -> window (step st o).
Proof.
  unfold window. intros Hw. destruct o as [|inports|]; cbn [NnFft.step].
  - unfold NnFft.control. destruct (pc st) eqn:Hpc; cbn;
      try (rewrite Hpc; exact Hw); try tauto.
    + destruct (recordings st !! cur st); exact Hw.
    + destruct (keep_waiting st) eqn:Hk; [rewrite Hpc; exact Hw|].
      cbn. split; [exact Hw|]. now apply keep_waiting_false in Hk.
  - destruct (clients_open st); [|exact Hw].
    case_eq (note_toggle st); intros Ht;
      [|rewrite process_disabled by exact Ht; exact Hw].
    pose proof (process_length inports st) as Hlen. rewrite Ht in Hlen.
    destruct (process_control_state inports st)
      as (Ht' & _ & _ & _ & _ & _ & Hpc').
    rewrite Hpc', Ht', Ht. rewrite Ht in Hw.
    destruct (pc st); try exact Hw; try (destruct Hw; discriminate).
    destruct Hw as (_ & Hten). split; [reflexivity | lia].
  - destruct (in_try (pc st)) eqn:Htry; cbn; [reflexivity|].
    destruct (pc st); try discriminate Htry; tauto.
Qed.

Lemma run_window (schedule : list occurrence) : forall st,
  window st -> stored_long st ->
  window (run schedule st) /\ stored_long (run schedule st).
Proof.
  induction schedule as [|o schedule IH]; intros st Hw Hs; [now split|].
  cbn [NnFft.run fold_left]. apply IH.
  - now apply step_window.
  - now apply step_stored_long.
Qed.

Lemma initial_window vectors garbage :
  window (initial vectors garbage) /\ stored_long (initial vectors garbage).
Proof.
  split; [now split|].
  intros i r fs Hr Hfs. cbn in Hr.
  apply initial_nothing_stored in Hr. congruence.
Qed.

(** X12.  Whatever the interleaving of statements, periods and
    interrupts, a recording that holds buffers holds at least ten
    blocks. *)
Theorem stored_recordings_hold_ten_blocks
    (vectors : list (list Q)) (garbage : frame)
    (schedule : list occurrence) (i : nat) (r : recording)
    (fs : list frame) :
  recordings (run schedule (initial vectors garbage)) !! i = Some r ->
  rec_buffers r = Some fs ->
  (10 <= length fs)%nat.
Proof.
  destruct (initial_window vectors garbage) as (Hw & Hs).
  destruct (run_window schedule _ Hw Hs) as (_ & Hlong).
  apply Hlong.
Qed.

Lemma waiting_run (schedule : list occurrence) : forall st,
  pc st = L86 -> note_toggle st = true -> clients_open st = true ->
  length (buffer_ st) = channels -> keep_waiting st = true ->
  waits (length (buffers st)) schedule ->
  let st' := run schedule st in
  (pc st' = L86 /\ note_toggle st' = true /\ clients_open st' = true /\
   length (buffer_ st') = channels /\ keep_waiting st' = true) /\
  buffers st' = buffers st ++ map captured (inputs_of schedule) /\
  midi_out st' = midi_out st /\ recordings st' = recordings st /\
  cur st' = cur st /\ events st' = events st.
Proof.
  induction schedule as [|o schedule IH];
    intros st Hpc Ht Hc Hshape Hk Hw.
  - cbn. rewrite app_nil_r. tauto.
  - destruct o as [|inports|]; cbn [waits] in Hw; [| |destruct Hw].
    + cbn [NnFft.run fold_left NnFft.step].
      rewrite control_waiting, Hk by exact Hpc.
      now apply IH.
    + destruct Hw as (Hloud & Hw). cbv zeta.
      change (run (Callback inports :: schedule) st)
        with (run schedule (step st (Callback inports))).
      cbn [NnFft.step]. rewrite Hc.
      destruct (process_control_state inports st)
        as (Ht' & Hrec & Hcur & Hev & Hout & Hc' & Hpc').
      destruct (process_captured inports st Ht Hshape) as (Hb_ & Hbs).
      assert (Hk' : keep_waiting (process inports st) = true).
      { unfold keep_waiting. rewrite Hb_, Hbs, length_app.
        cbn [length captured channels seq map nth].
        apply orb_true_iff. destruct Hloud as [Hfew|Hloud].
        - right. apply Nat.ltb_lt. lia.
        - now left. }
      destruct (IH (process inports st)) as (H1 & H2 & H3 & H4 & H5 & H6);
        try congruence.
      { rewrite Hb_. reflexivity. }
      { rewrite Hbs, length_app. cbn [length].
        now rewrite Nat.add_1_r. }
      split; [exact H1|]. cbn [inputs_of flat_map app map].
      rewrite H2, Hbs, <- app_assoc.
      repeat split; congruence.
Qed.

Lemma never_silent_waits (schedule : list occurrence) : forall n,
  Forall (fun o => match o with
                   | Control => True
                   | Callback inports => any (nth 0 inports []) = true
                   | Interrupt => False
                   end) schedule ->
  waits n schedule.
Proof.
  induction schedule as [|o schedule IH]; intros n H; [exact I|].
  apply Forall_cons_1 in H. destruct H as (Ho & H).
  destruct o as [|inports|]; cbn [waits].
  - now apply IH.
  - split; [now right | now apply IH].
  - exact Ho.
Qed.

Lemma run_cons (o : occurrence) (schedule : list occurrence) (st : state) :
  run (o :: schedule) st = run schedule (step st o).
Proof. reflexivity. Qed.

(** From the head of the loop, with a recording left, to the [while]
    statement. *)
Lemma open_cycle (st : state) (r : recording) :
  pc st = L81 -> recordings st !! cur st = Some r ->
  let st' := run (repeat Control 3) st in
  pc st' = L86 /\ note_toggle st' = true /\
  clients_open st' = clients_open st /\ buffer_ st' = buffer_ st /\
  buffers st' = buffers st /\ recordings st' = recordings st /\
  cur st' = cur st /\
  events st' = to_midi_note_events (pitch_vector r) /\
  midi_out st'
  = midi_out st
    ++ [send_events (fst (to_midi_note_events (pitch_vector r)))].
Proof.
  intros Hpc Hr.
  assert (E1 : control st
               = goto L84
                   (set_events (to_midi_note_events (pitch_vector r)) st))
    by (unfold NnFft.control; now rewrite Hpc, Hr).
  cbn [repeat]. rewrite !run_cons.
  cbn [NnFft.run fold_left NnFft.step]. rewrite E1.
  cbn. repeat split.
Qed.

(** From the [while] statement, once its condition is false, to the next
    recording. *)
Lemma close_cycle (st : state) :
  pc st = L86 -> keep_waiting st = false ->
  let st' := run (repeat Control 5) st in
  pc st' = L81 /\ cur st' = S (cur st) /\ buffers st' = [] /\
  note_toggle st' = false /\ recordings st' = store st /\
  midi_out st' = midi_out st ++ [send_events (snd (events st))].
Proof.
  intros Hpc Hk. cbn [repeat NnFft.run fold_left NnFft.step].
  rewrite (control_waiting to_midi_note_events st Hpc), Hk.
  unfold NnFft.control. cbn. repeat split.
Qed.

(** A whole cycle in which no call of [process] overlaps a statement,
    from the head of the loop with [buffers] empty. *)
Lemma cycle_from_head
    (st : state) (schedule : list occurrence) (quiet : list block)
    (r : recording) :
  let st' := run (repeat Control 3 ++ schedule
                  ++ Callback quiet :: repeat Control 5) st in
  length (buffer_ st) = channels -> clients_open st = true ->
  buffers st = [] ->
  pc st = L81 -> recordings st !! cur st = Some r ->
  waits 0 schedule -> (9 <= length (inputs_of schedule))%nat ->
  any (nth 0 quiet []) = false ->
  pc st' = L81 /\ cur st' = S (cur st) /\ buffers st' = [] /\
  note_toggle st' = false /\
  recordings st'
  = <[cur st := {| pitch_vector := pitch_vector r;
                   rec_buffers :=
                     Some (map captured (inputs_of schedule ++ [quiet])) |}]>
      (recordings st) /\
  midi_out st'
  = midi_out st ++ note_calls to_midi_note_events (pitch_vector r).
Proof.
  intros st' Hshape Hc Hb Hpc Hr Hwaits Hnine Hquiet.
  unfold st'. clear st'. rewrite !run_app, run_cons.
  destruct (open_cycle st r Hpc Hr)
    as (A1 & A2 & A3 & A4 & A5 & A6 & A7 & A8 & A9).
  generalize dependent (run (repeat Control 3) st). intros s3 A1 A2 A3 A4
    A5 A6 A7 A8 A9.
  assert (Hk3 : keep_waiting s3 = true).
  { unfold keep_waiting. rewrite A5, Hb. apply orb_true_r. }
  assert (Hw3 : waits (length (buffers s3)) schedule)
    by (rewrite A5, Hb; exact Hwaits).
  destruct (waiting_run schedule s3 A1 A2 (eq_trans A3 Hc)
              (eq_trans (f_equal (@length _) A4) Hshape) Hk3 Hw3)
    as ((B1 & B2 & B3 & B4 & _) & B5 & B6 & B7 & B8 & B9).
  generalize dependent (run schedule s3). intros s4 B1 B2 B3 B4 B5 B6 B7
    B8 B9.
  cbn [NnFft.step]. rewrite B3.
  destruct (process_control_state quiet s4)
    as (_ & Hrec & Hcur & Hev & Hout & _ & Hpc').
  destruct (process_captured quiet s4 B2 B4) as (Hb_ & Hbs).
  assert (Hstop : keep_waiting (process quiet s4) = false).
  { apply keep_waiting_false. split.
    - rewrite Hbs, B5, A5, Hb, !length_app, length_map. cbn [length]. lia.
    - rewrite Hb_. exact Hquiet. }
  destruct (close_cycle (process quiet s4) (eq_trans Hpc' B1) Hstop)
    as (F1 & F2 & F3 & F4 & F5 & F6).
  generalize dependent (run (repeat Control 5) (process quiet s4)).
  intros s5 F1 F2 F3 F4 F5 F6.
  split; [exact F1|]. split; [congruence|].
  split; [exact F3|]. split; [exact F4|]. split.
  - rewrite F5. unfold store.
    rewrite Hrec, Hcur, B7, B8, A6, A7, Hr, Hbs, B5, A5, Hb.
    cbn [app]. now rewrite map_app.
  - rewrite F6, Hout, Hev, B6, B9, A9, A8. unfold NnFftRuns.note_calls.
    now rewrite <- app_assoc.
Qed.

Abbreviation traffic := (NnFftRuns.traffic to_midi_note_events).
Abbreviation port_follows := (NnFftRuns.port_follows to_midi_note_events).
Abbreviation note_calls := (NnFftRuns.note_calls to_midi_note_events).

Lemma traffic_same (vectors : list (list Q)) (n : nat) (l l' : label) :
  match l, l' with
  | L86, L90 | L90, L91 | L92, L93 => True
  | L81, L84 | L84, L85 | L81, L105 => True
  | _, _ => False
  end ->
  traffic vectors n l = traffic vectors n l'.
Proof.
  unfold NnFftRuns.traffic.
  destruct (vectors !! n), l, l'; intros H; try reflexivity; destruct H.
Qed.

Lemma traffic_next (vectors : list (list Q)) (n : nat) (v : list Q) :
  vectors !! n = Some v ->
  traffic vectors (S n) L81 = traffic vectors n L93.
Proof.
  intros Hv. unfold NnFftRuns.traffic. rewrite Hv.
  rewrite (take_S_r vectors n v Hv), flat_map_app. cbn [flat_map].
  rewrite app_nil_r.
  destruct (vectors !! S n); now rewrite app_nil_r.
Qed.

Lemma step_port_follows (vectors : list (list Q)) (st : state)
    (o : occurrence) :
  port_follows vectors st -> port_follows vectors (step st o).
Proof.
  unfold NnFftRuns.port_follows. intros (Hvec & H).
  split; [now rewrite step_pitch_vectors|].
  destruct o as [|inports|]; cbn [NnFft.step].
  - unfold NnFft.control. destruct (pc st) eqn:Hpc.
    + destruct (recordings st !! cur st) as [r|] eqn:Hr; cbn -[NnFftRuns.traffic].
      * split.
        -- exists (pitch_vector r). split; [|reflexivity].
           rewrite <- Hvec, lookup_map, Hr. reflexivity.
        -- rewrite H. now apply traffic_same.
      * split.
        -- rewrite <- Hvec, length_map.
           now apply lookup_ge_None in Hr.
        -- rewrite H. now apply traffic_same.
    + destruct H as (Hv & H). cbn -[NnFftRuns.traffic]. split; [exact Hv|].
      rewrite H. now apply traffic_same.
    + destruct H as ((v & Hv & Hev) & H). cbn -[NnFftRuns.traffic].
      split; [now exists v|].
      rewrite H, Hev. unfold NnFftRuns.traffic. rewrite Hv.
      now rewrite app_nil_r.
    + destruct (keep_waiting st); [now rewrite Hpc|].
      destruct H as (Hv & H). cbn -[NnFftRuns.traffic]. split; [exact Hv|].
      rewrite H. now apply traffic_same.
    + destruct H as (Hv & H). cbn -[NnFftRuns.traffic]. split; [exact Hv|].
      rewrite H. now apply traffic_same.
    + destruct H as ((v & Hv & Hev) & H). cbn -[NnFftRuns.traffic].
      split; [now exists v|].
      rewrite H, Hev. unfold NnFftRuns.traffic. rewrite Hv.
      now rewrite <- app_assoc.
    + destruct H as (Hv & H). cbn -[NnFftRuns.traffic]. split; [exact Hv|].
      rewrite H. now apply traffic_same.
    + destruct H as ((v & Hv & _) & H). cbn -[NnFftRuns.traffic].
      rewrite H. symmetry. now apply traffic_next with v.
    + now rewrite Hpc.
    + now rewrite Hpc.
  - destruct (clients_open st); [|exact H].
    destruct (process_control_state inports st)
      as (_ & _ & -> & -> & -> & _ & ->). exact H.
  - destruct (in_try (pc st)); exact I.
Qed.

Lemma run_port_follows (vectors : list (list Q))
    (schedule : list occurrence) : forall st,
  port_follows vectors st -> port_follows vectors (run schedule st).
Proof.
  induction schedule as [|o schedule IH]; intros st H; [exact H|].
  cbn [NnFft.run fold_left]. apply IH. now apply step_port_follows.
Qed.

Lemma initial_port_follows vectors garbage :
  port_follows vectors (initial vectors garbage).
Proof.
  unfold NnFftRuns.port_follows. cbn. split.
  - rewrite map_map. apply map_id.
  - unfold NnFftRuns.traffic. cbn.
    now destruct (vectors !! 0%nat).
Qed.

(** X16.  Whatever the interleaving of statements and periods, as long
    as no interrupt has ended the script: the calls made on the port are
    the note-on and then the note-off events of each recording already
    captured, in the order of the recordings, followed by the note-on
    events of the recording being captured, and by its note-off events
    once they are sent.  When the loops are over, the port has seen
    exactly one note-on and one note-off call for every recording. *)
Theorem port_sees_notes_in_order
    (vectors : list (list Q)) (garbage : frame)
    (schedule : list occurrence) :
  let st := run schedule (initial vectors garbage) in
  (pc st <> Lraise -> midi_out st = traffic vectors (cur st) (pc st)) /\
  (pc st = L105 -> midi_out st = flat_map note_calls vectors).
Proof.
  intros st.
  assert (H : port_follows vectors st).
  { unfold st. apply run_port_follows. apply initial_port_follows. }
  destruct H as (_ & H). split.
  - intros Hpc. destruct (pc st); try apply H. now elim Hpc.
  - intros Hpc. rewrite Hpc in H. destruct H as (Hlen & ->).
    unfold NnFftRuns.traffic.
    rewrite firstn_all2 by exact Hlen.
    rewrite (proj2 (lookup_ge_None vectors (cur st)) Hlen).
    apply app_nil_r.
Qed.

End Script.

Lemma stored_recordings_hold_ten_blocks_witness :
  (10 <= length (repeat [[0%Q]; [0%Q]] 10))%nat.
Proof.
  apply (stored_recordings_hold_ten_blocks onoff_events
           [[0%Q; 1%Q]] [[0%Q]; [0%Q]]
           (repeat Control 3 ++ scripted (repeat [[0%Q]; [0%Q]] 10)
            ++ repeat Control 4)
           0 {| pitch_vector := [0%Q; 1%Q];
                rec_buffers := Some (repeat [[0%Q]; [0%Q]] 10) |}).
  - vm_compute. reflexivity.
  - vm_compute. reflexivity.
Defined.

Lemma port_sees_notes_in_order_witness :
  midi_out (run onoff_events (repeat Control 3)
              (initial [[0%Q; 1%Q]] [[0%Q]; [0%Q]]))
  = traffic onoff_events [[0%Q; 1%Q]]
      (cur (run onoff_events (repeat Control 3)
              (initial [[0%Q; 1%Q]] [[0%Q]; [0%Q]])))
      (pc (run onoff_events (repeat Control 3)
             (initial [[0%Q; 1%Q]] [[0%Q]; [0%Q]]))) /\
  midi_out (run onoff_events
              (repeat Control 3 ++ scripted (repeat [[0%Q]; [0%Q]] 10)
               ++ repeat Control 5)
              (initial [[0%Q; 1%Q]] [[0%Q]; [0%Q]]))
  = [send_events [Event 0x90 1 127]; send_events [Event 0x80 1 127]].
Proof.
  split.
  - apply (proj1 (port_sees_notes_in_order onoff_events
                    [[0%Q; 1%Q]] [[0%Q]; [0%Q]] (repeat Control 3))).
    vm_compute. discriminate.
  - apply (proj2 (port_sees_notes_in_order onoff_events
                    [[0%Q; 1%Q]] [[0%Q]; [0%Q]]
                    (repeat Control 3 ++ scripted (repeat [[0%Q]; [0%Q]] 10)
                     ++ repeat Control 5))).
    vm_compute. reflexivity.
Defined.

End CaptureRunFacts.

(** * The capture loop, statement by statement in both threads *)

Module ThreadFacts.
Import Numpy Sequencer NnFft NnFftRuns NnFftThreads CaptureFacts
  CaptureRunFacts.

Section Script.

Variable to_midi_note_events : list Q -> list event * list event.

Abbreviation play := (play to_midi_note_events).
Abbreviation move_step := (move_step to_midi_note_events).
Abbreviation control_thread := (control_thread to_midi_note_events).
Abbreviation sequential := (sequential to_midi_note_events).
Abbreviation run := (run to_midi_note_events).
Abbreviation control := (control to_midi_note_events).
Abbreviation step := (step to_midi_note_events).

Lemma play_app (m1 m2 : list move) (t : threads) :
  play (m1 ++ m2) t = play m2 (play m1 t).
Proof. apply fold_left_app. Qed.

Lemma whole_callback_process (inports : list block) (t : threads) :
  callback t = Idle ->
  play (whole_callback inports) t
  = {| globals := step (globals t) (Callback inports);
       tested := tested t; callback := Idle |}.
Proof.
  intros Hidle. destruct t as [st b c]. cbn in Hidle. subst c.
  cbn [whole_callback repeat NnFftThreads.play fold_left
       NnFftThreads.move_step enter callback globals tested NnFft.step].
  destruct st as [toggle b_ bs rs n ev out open l].
  destruct open, toggle; reflexivity.
Qed.

Lemma whole_statement_control (t : threads) :
  tested t = false ->
  play (whole_statement t) t
  = {| globals := control (globals t); tested := false;
       callback := callback t |}.
Proof.
  intros Hfresh. destruct t as [st b c]. cbn in Hfresh. subst b.
  unfold whole_statement. cbn [globals].
  destruct (pc st) eqn:Hpc;
    try (cbn [NnFftThreads.play fold_left NnFftThreads.move_step];
         unfold NnFftThreads.control_thread; cbn [globals tested callback];
         rewrite Hpc; reflexivity).
  rewrite (control_waiting to_midi_note_events st Hpc). unfold keep_waiting.
  destruct (any (nth 0 (buffer_ st) [])) eqn:Hany.
  - cbn [NnFftThreads.play fold_left NnFftThreads.move_step].
    unfold NnFftThreads.control_thread. cbn [globals tested callback].
    now rewrite Hpc, Hany.
  - cbn [NnFftThreads.play fold_left NnFftThreads.move_step].
    unfold NnFftThreads.control_thread. cbn [globals tested callback].
    rewrite Hpc, Hany. cbn [globals tested callback orb]. rewrite Hpc.
    destruct (length (buffers st) <? 10)%nat; reflexivity.
Qed.

Lemma sequential_run (schedule : list occurrence) : forall t,
  callback t = Idle -> tested t = false ->
  play (sequential schedule t) t
  = {| globals := run schedule (globals t); tested := false;
       callback := Idle |}.
Proof.
  induction schedule as [|o schedule IH]; intros t Hidle Hfresh.
  - destruct t as [st b c]. cbn in *. now subst.
  - cbn [NnFftThreads.sequential]. rewrite play_app.
    assert (Hone : exists t',
              play match o with
                   | Control => whole_statement t
                   | Callback inports => whole_callback inports
                   | Interrupt => [Signal]
                   end t = t' /\
              globals t' = step (globals t) o /\
              callback t' = Idle /\ tested t' = false).
    { destruct o as [|inports|].
      - rewrite whole_statement_control by exact Hfresh.
        eexists. split; [reflexivity|]. cbn. repeat split. exact Hidle.
      - rewrite whole_callback_process by exact Hidle.
        eexists. split; [reflexivity|]. cbn. repeat split. exact Hfresh.
      - eexists. split; [reflexivity|]. cbn. repeat split. exact Hidle. }
    destruct Hone as (t' & -> & Hg & Hidle' & Hfresh').
    rewrite IH by assumption. now rewrite Hg.
Qed.

Lemma play_cons (m : move) (moves : list move) (t : threads) :
  play (m :: moves) t = play moves (move_step t m).
Proof. reflexivity. Qed.

(** *** What holds whatever the interleaving *)

Lemma move_globals_ok (t : threads) (m : move) :
  globals_ok (globals t) -> globals_ok (globals (move_step t m)).
Proof.
  intros Hok. destruct m as [|inports| |]; cbn [NnFftThreads.move_step].
  - unfold NnFftThreads.control_thread.
    destruct (pc (globals t)) eqn:Hpc;
      try (cbn [globals];
           apply (step_globals_ok to_midi_note_events _ Control Hok)).
    destruct Hok as (Hshape & Hopen & Hon).
    destruct (tested t);
      repeat match goal with
             | |- context [if ?c then _ else _] => destruct c
             end; cbn [globals]; try (repeat split; assumption).
    repeat split; cbn; try assumption.
    + intros _. apply Hopen. rewrite Hpc. discriminate.
    + intros [H | H]; discriminate H.
  - unfold enter. destruct (callback t); try exact Hok.
    destruct (clients_open (globals t)); exact Hok.
  - unfold callback_thread. destruct (callback t); cbn [globals];
      try exact Hok;
      destruct Hok as (Hshape & Hopen & Hon);
      repeat split; cbn; try assumption.
    rewrite <- Hshape. apply length_insert.
  - cbn [globals].
    apply (step_globals_ok to_midi_note_events _ Interrupt Hok).
Qed.

Lemma play_globals_ok (moves : list move) : forall t,
  globals_ok (globals t) -> globals_ok (globals (play moves t)).
Proof.
  induction moves as [|m moves IH]; intros t Hok; [exact Hok|].
  rewrite play_cons. apply IH. now apply move_globals_ok.
Qed.

Lemma move_sink (t : threads) (m : move) :
  (note_toggle (globals t) = true ->
   pc (globals t) = L85 \/ pc (globals t) = L86 \/ pc (globals t) = L90) ->
  note_toggle (globals (move_step t m)) = true ->
  pc (globals (move_step t m)) = L85 \/
  pc (globals (move_step t m)) = L86 \/
  pc (globals (move_step t m)) = L90.
Proof.
  intros Hinv. destruct m as [|inports| |]; cbn [NnFftThreads.move_step].
  - unfold NnFftThreads.control_thread, NnFft.control.
    destruct (pc (globals t)) eqn:Hpc;
      repeat match goal with
             | |- context [match ?c with _ => _ end] => destruct c
             end; cbn; rewrite ?Hpc; intros Ht; auto;
      try discriminate Ht;
      try (destruct (Hinv Ht) as [H | [H | H]]; discriminate H).
  - unfold enter. destruct (callback t); try exact Hinv.
    destruct (clients_open (globals t)); exact Hinv.
  - unfold callback_thread. destruct (callback t); cbn; exact Hinv.
  - unfold NnFft.step, handler.
    destruct (in_try (pc (globals t))) eqn:Htry; cbn.
    + discriminate.
    + intros Ht. destruct (Hinv Ht) as [H | [H | H]];
        rewrite H in Htry; discriminate Htry.
Qed.

Lemma play_sink (moves : list move) : forall t,
  (note_toggle (globals t) = true ->
   pc (globals t) = L85 \/ pc (globals t) = L86 \/ pc (globals t) = L90) ->
  note_toggle (globals (play moves t)) = true ->
  pc (globals (play moves t)) = L85 \/
  pc (globals (play moves t)) = L86 \/
  pc (globals (play moves t)) = L90.
Proof.
  induction moves as [|m moves IH]; intros t Hinv; [exact Hinv|].
  rewrite play_cons. apply IH. now apply move_sink.
Qed.

Lemma move_ten_blocks (t : threads) (m : move) :
  store_grows t -> ten_blocks t ->
  store_grows (move_step t m) /\ ten_blocks (move_step t m).
Proof.
  unfold store_grows, ten_blocks. intros Hgrow Hten.
  destruct m as [|inports| |]; cbn [NnFftThreads.move_step].
  - unfold NnFftThreads.control_thread.
    destruct (pc (globals t)) eqn:Hpc;
      try (unfold NnFft.control; rewrite Hpc).
    + destruct (recordings (globals t) !! cur (globals t)); cbn;
        (split; [exact Hgrow | exact I]).
    + cbn. split; [exact Hgrow | exact I].
    + cbn. split; [exact Hgrow | exact I].
    + destruct (tested t).
      * destruct (length (buffers (globals t)) <? 10)%nat eqn:Hlen; cbn;
          rewrite ?Hpc; (split; [exact Hgrow|]); [exact I|].
        now apply Nat.ltb_ge in Hlen.
      * destruct (any (nth 0 (buffer_ (globals t)) [])); cbn;
          rewrite ?Hpc; (split; [exact Hgrow | exact I]).
    + cbn. split; [exact Hgrow | exact Hten].
    + cbn. split; [exact Hgrow | exact Hten].
    + cbn. split; [exact Hgrow | exact I].
    + cbn. split; [|exact I].
      destruct (callback t); try exact I. lia.
    + cbn. rewrite Hpc. split; [exact Hgrow | exact I].
    + cbn. rewrite Hpc. split; [exact Hgrow | exact I].
  - unfold enter. destruct (callback t) eqn:Hc; cbn; rewrite ?Hc;
      try (split; assumption).
    destruct (clients_open (globals t)); cbn; rewrite ?Hc;
      split; (exact I || assumption).
  - unfold callback_thread.
    destruct (callback t) as [|inports|inports ch| |value] eqn:Hc; cbn.
    + rewrite Hc. split; assumption.
    + destruct (note_toggle (globals t)); split; (exact I || exact Hten).
    + match goal with
      | |- context [if ?c then _ else _] => destruct c
      end; split; (exact I || exact Hten).
    + split; [|exact Hten]. rewrite length_app. cbn. lia.
    + split; [exact I|].
      destruct (pc (globals t)); (exact I || lia).
  - unfold NnFft.step, handler.
    destruct (in_try (pc (globals t))); cbn;
      (split; [assumption | exact I]).
Qed.

Lemma play_ten_blocks (moves : list move) : forall t,
  store_grows t -> ten_blocks t ->
  store_grows (play moves t) /\ ten_blocks (play moves t).
Proof.
  induction moves as [|m moves IH]; intros t Hgrow Hten; [now split|].
  rewrite play_cons.
  destruct (move_ten_blocks t m Hgrow Hten) as (Hgrow' & Hten').
  now apply IH.
Qed.

Lemma callback_moves_keep (t : threads) (m : move) :
  m = Proceed \/ (exists inports, m = Enter inports) ->
  pc (globals (move_step t m)) = pc (globals t) /\
  tested (move_step t m) = tested t /\
  note_toggle (globals (move_step t m)) = note_toggle (globals t) /\
  recordings (globals (move_step t m)) = recordings (globals t) /\
  cur (globals (move_step t m)) = cur (globals t) /\
  events (globals (move_step t m)) = events (globals t) /\
  midi_out (globals (move_step t m)) = midi_out (globals t) /\
  clients_open (globals (move_step t m)) = clients_open (globals t).
Proof.
  intros [-> | (inports & ->)]; cbn [NnFftThreads.move_step].
  - unfold callback_thread. destruct (callback t); cbn; repeat split.
  - unfold enter. destruct (callback t); cbn;
      try destruct (clients_open (globals t)) eqn:Hopen; cbn;
      repeat split; assumption.
Qed.

(** C4, as the code has it.  The [while] statement of line 86 is left by
    one move only: the control thread, having found [np.any(buffer_[0])]
    false, finds ten blocks or more in [buffers]; and it comes to compare
    the number of blocks only by finding the samples of channel 0 of
    [buffer_] all zero.  The other channel is not looked at, and the
    engine may call [process] between the two findings.  Once the
    statement is left, [buffers] holds ten blocks or more.  When the
    engine delivers nine blocks and then one whose channel 0 is silent,
    no call overlapping a statement, the loop is not left before the
    tenth block and is left right after it, with ten blocks in
    [buffers]. *)
Theorem capture_closes_on_ten_blocks_and_quiet_channel
    (vectors : list (list Q)) (garbage : frame) (moves : list move)
    (input : list (list block)) (quiet : list block) :
  let t := play moves (start vectors garbage) in
  (pc (globals t) = L90 -> (10 <= length (buffers (globals t)))%nat) /\
  (pc (globals t) = L86 ->
   (forall m, pc (globals (move_step t m)) = L90 ->
              m = Statement /\ tested t = true /\
              (10 <= length (buffers (globals t)))%nat) /\
   (forall m, tested t = false -> tested (move_step t m) = true ->
              m = Statement /\
              any (nth 0 (buffer_ (globals t)) []) = false) /\
   (tested t = true -> (10 <= length (buffers (globals t)))%nat ->
    pc (globals (move_step t Statement)) = L90) /\
   (tested t = false -> any (nth 0 (buffer_ (globals t)) []) = false ->
    tested (move_step t Statement) = true /\
    pc (globals (move_step t Statement)) = L86)) /\
  (pc (globals t) = L86 ->
   length garbage = channels -> callback t = Idle -> tested t = false ->
   buffers (globals t) = [] ->
   length input = 9%nat -> any (nth 0 quiet []) = false ->
   (forall k, (k < 10)%nat ->
      pc (globals (play (sequential
                           (scripted (firstn k (input ++ [quiet]))) t) t))
      = L86) /\
   pc (globals (play (sequential (scripted (input ++ [quiet])) t) t))
   = L90 /\
   length (buffers (globals (play (sequential
                                     (scripted (input ++ [quiet])) t) t)))
   = 10%nat).
Proof.
  intros t. split; [|split].
  - intros Hpc.
    destruct (play_ten_blocks moves (start vectors garbage) I I)
      as (_ & Hten).
    fold t in Hten. unfold ten_blocks in Hten. now rewrite Hpc in Hten.
  - intros Hpc. split; [|split; [|split]].
    + intros m Hexit. destruct m as [|inports| |].
      * cbn [NnFftThreads.move_step] in Hexit.
        unfold NnFftThreads.control_thread in Hexit. rewrite Hpc in Hexit.
        destruct (tested t).
        -- destruct (length (buffers (globals t)) <? 10)%nat eqn:Hlen.
           ++ cbn in Hexit. congruence.
           ++ apply Nat.ltb_ge in Hlen. now repeat split.
        -- destruct (any (nth 0 (buffer_ (globals t)) []));
             cbn in Hexit; congruence.
      * destruct (callback_moves_keep t (Enter inports)) as (H & _);
          [right; now exists inports|]. congruence.
      * destruct (callback_moves_keep t Proceed) as (H & _);
          [now left|]. congruence.
      * cbn in Hexit. rewrite Hpc in Hexit. discriminate Hexit.
    + intros m Hfresh Htested. destruct m as [|inports| |].
      * cbn [NnFftThreads.move_step] in Htested.
        unfold NnFftThreads.control_thread in Htested.
        rewrite Hpc, Hfresh in Htested.
        destruct (any (nth 0 (buffer_ (globals t)) [])); [|now split].
        congruence.
      * destruct (callback_moves_keep t (Enter inports)) as (_ & H & _);
          [right; now exists inports|]. congruence.
      * destruct (callback_moves_keep t Proceed) as (_ & H & _);
          [now left|]. congruence.
      * discriminate Htested.
    + intros Htested Hlen. cbn [NnFftThreads.move_step].
      unfold NnFftThreads.control_thread. rewrite Hpc, Htested.
      apply Nat.ltb_ge in Hlen. now rewrite Hlen.
    + intros Hfresh Hany. cbn [NnFftThreads.move_step].
      unfold NnFftThreads.control_thread. rewrite Hpc, Hfresh, Hany.
      split; [reflexivity | exact Hpc].
  - intros Hpc Hgarbage Hidle Hfresh Hb Hlen Hquiet.
    assert (Hok : globals_ok (globals t)).
    { unfold t. apply play_globals_ok. now apply initial_globals_ok. }
    destruct Hok as (Hshape & Hopen & Hon).
    assert (Hc : clients_open (globals t) = true)
      by (apply Hopen; rewrite Hpc; discriminate).
    assert (Ht : note_toggle (globals t) = true) by (apply Hon; now right).
    destruct (scripted_capture_closes to_midi_note_events input quiet
                (globals t) Hpc Ht Hc Hshape Hb Hlen Hquiet)
      as (H1 & H2 & H3).
    split; [|split].
    + intros k Hk. rewrite sequential_run by assumption. now apply H1.
    + rewrite sequential_run by assumption. exact H2.
    + rewrite sequential_run by assumption. exact H3.
Qed.

Lemma nth_insert_first (f : frame) (b : block) :
  (0 < length f)%nat -> nth 0 (<[0%nat := b]> f) [] = b.
Proof. destruct f; [cbn; lia | reflexivity]. Qed.

Lemma nth_insert_later (f : frame) (ch : nat) (b : block) :
  nth 0 (<[S ch := b]> f) [] = nth 0 f [].
Proof. destruct f; reflexivity. Qed.

Lemma move_sounding (t : threads) (m : move) :
  sounds_on m ->
  pc (globals t) = L86 -> tested t = false ->
  (0 < length (buffer_ (globals t)))%nat ->
  any (nth 0 (buffer_ (globals t)) []) = true ->
  sounding (callback t) ->
  let t' := move_step t m in
  (pc (globals t') = L86 /\ tested t' = false /\
   (0 < length (buffer_ (globals t')))%nat /\
   any (nth 0 (buffer_ (globals t')) []) = true /\
   sounding (callback t')) /\
  midi_out (globals t') = midi_out (globals t) /\
  recordings (globals t') = recordings (globals t) /\
  note_toggle (globals t') = note_toggle (globals t).
Proof.
  intros Hm Hpc Hfresh Hshape Hany Hsound.
  destruct m as [|inports| |]; cbn [NnFftThreads.move_step].
  - unfold NnFftThreads.control_thread. rewrite Hpc, Hfresh, Hany.
    now repeat split.
  - unfold enter. destruct (callback t) eqn:Hc;
      try (cbn; rewrite ?Hc; now repeat split).
    destruct (clients_open (globals t));
      cbn; rewrite ?Hc; repeat split; assumption.
  - unfold callback_thread.
    destruct (callback t) as [|inports|inports ch| |value] eqn:Hc; cbn.
    + rewrite Hc. now repeat split.
    + destruct (note_toggle (globals t)); cbn; repeat split; assumption.
    + assert (Hch : any (nth 0 (<[ch := nth ch inports []]>
                                  (buffer_ (globals t))) []) = true).
      { destruct ch as [|ch].
        - rewrite nth_insert_first by exact Hshape. exact Hsound.
        - now rewrite nth_insert_later. }
      assert (Hlen : (0 < length (<[ch := nth ch inports []]>
                                    (buffer_ (globals t))))%nat).
      { eapply Nat.lt_le_trans; [exact Hshape|].
        apply Nat.eq_le_incl. symmetry. apply length_insert. }
      repeat split; try assumption.
      match goal with
      | |- context [if ?c then _ else _] => destruct c
      end; exact I.
    + now repeat split.
    + now repeat split.
  - destruct Hm.
Qed.

(** X14.  The wait of line 86 has no bound.  Once the control thread is
    at the first operand of the condition while channel 0 of [buffer_]
    sounds, it stays in the [while] statement as long as every call of
    [process], the one in progress included, delivers a block that
    sounds on channel 0, whatever the number of calls and however their
    statements fall between the evaluations of the condition; nothing is
    sent, nothing is stored, and the sink stays as it is. *)
Theorem wait_has_no_bound (t : threads) (moves : list move) :
  pc (globals t) = L86 -> tested t = false ->
  (0 < length (buffer_ (globals t)))%nat ->
  any (nth 0 (buffer_ (globals t)) []) = true ->
  sounding (callback t) ->
  Forall sounds_on moves ->
  pc (globals (play moves t)) = L86 /\
  tested (play moves t) = false /\
  midi_out (globals (play moves t)) = midi_out (globals t) /\
  recordings (globals (play moves t)) = recordings (globals t) /\
  note_toggle (globals (play moves t)) = note_toggle (globals t).
Proof.
  intros Hpc Hfresh Hshape Hany Hsound Hmoves. revert t Hpc Hfresh Hshape
    Hany Hsound.
  induction Hmoves as [|m moves Hm _ IH];
    intros t Hpc Hfresh Hshape Hany Hsound.
  - now repeat split.
  - rewrite play_cons.
    destruct (move_sounding t m Hm Hpc Hfresh Hshape Hany Hsound)
      as ((H1 & H2 & H3 & H4 & H5) & H6 & H7 & H8).
    destruct (IH _ H1 H2 H3 H4 H5) as (G1 & G2 & G3 & G4 & G5).
    repeat split; congruence.
Qed.

(** X13.  Whatever the interleaving of the statements of the two threads
    and of interrupts, the sink is enabled only from the statement that
    sends the note-on events to the one that disables it (lines 85 to
    90); and a statement of [process] changes no global but [buffer_] and
    [buffers], nor the place of the control thread. *)
Theorem sink_enabled_only_in_cycle
    (vectors : list (list Q)) (garbage : frame) (moves : list move) :
  let t := play moves (start vectors garbage) in
  (note_toggle (globals t) = true ->
   pc (globals t) = L85 \/ pc (globals t) = L86 \/ pc (globals t) = L90) /\
  (forall m, m = Proceed \/ (exists inports, m = Enter inports) ->
     pc (globals (move_step t m)) = pc (globals t) /\
     note_toggle (globals (move_step t m)) = note_toggle (globals t) /\
     recordings (globals (move_step t m)) = recordings (globals t) /\
     cur (globals (move_step t m)) = cur (globals t) /\
     events (globals (move_step t m)) = events (globals t) /\
     midi_out (globals (move_step t m)) = midi_out (globals t) /\
     clients_open (globals (move_step t m)) = clients_open (globals t)).
Proof.
  intros t. split.
  - apply play_sink. cbn. discriminate.
  - intros m Hm.
    destruct (callback_moves_keep t m Hm)
      as (H1 & _ & H3 & H4 & H5 & H6 & H7 & H8).
    now repeat split.
Qed.

(** X15.  A whole cycle in which no call of [process] overlaps a
    statement.  From the head of the loop, with a recording left,
    [buffers] empty and no call in progress: the note-on events are sent,
    the blocks delivered while the schedule has to wait and then a block
    silent on channel 0, ten at least in all, are captured; the note-off
    events are sent, exactly these blocks are stored in the recording, in
    the order delivered, and the control thread is back at the head of
    the loop, at the next recording, with [buffers] empty and the sink
    disabled. *)
Theorem cycle_stores_the_blocks_delivered
    (t : threads) (schedule : list occurrence) (quiet : list block)
    (r : recording) :
  let st := globals t in
  let t' := play (sequential (repeat Control 3 ++ schedule
                              ++ Callback quiet :: repeat Control 5) t) t in
  callback t = Idle -> tested t = false ->
  length (buffer_ st) = channels -> clients_open st = true ->
  buffers st = [] ->
  pc st = L81 -> recordings st !! cur st = Some r ->
  waits 0 schedule -> (9 <= length (inputs_of schedule))%nat ->
  any (nth 0 quiet []) = false ->
  callback t' = Idle /\ tested t' = false /\
  pc (globals t') = L81 /\ cur (globals t') = S (cur st) /\
  buffers (globals t') = [] /\ note_toggle (globals t') = false /\
  recordings (globals t')
  = <[cur st := {| pitch_vector := pitch_vector r;
                   rec_buffers :=
                     Some (map captured (inputs_of schedule ++ [quiet])) |}]>
      (recordings st) /\
  midi_out (globals t')
  = midi_out st ++ NnFftRuns.note_calls to_midi_note_events (pitch_vector r).
Proof.
  intros st t' Hidle Hfresh Hshape Hc Hb Hpc Hr Hwaits Hnine Hquiet.
  unfold t'. rewrite sequential_run by assumption.
  cbn [callback tested globals].
  split; [reflexivity|]. split; [reflexivity|].
  now apply cycle_from_head.
Qed.

End Script.

Lemma capture_closes_on_ten_blocks_and_quiet_channel_witness :
  let t := NnFftThreads.play onoff_events (repeat Statement 3)
             (start [[0%Q; 1%Q]] [[0%Q]; [0%Q]]) in
  let t' := NnFftThreads.play onoff_events
              (NnFftThreads.sequential onoff_events
                 (scripted (repeat [[1%Q]; [1%Q]] 9 ++ [[[0%Q]; [0%Q]]])) t)
              t in
  pc (globals t') = L90 /\ length (buffers (globals t')) = 10%nat /\
  (10 <= length
           (buffers
              (globals
                 (NnFftThreads.play onoff_events
                    (repeat Statement 3
                     ++ concat (repeat (whole_callback [[0%Q]; [0%Q]]) 11)
                     ++ repeat Statement 2)
                    (start [[0%Q; 1%Q]] [[0%Q]; [0%Q]])))))%nat.
Proof.
  intros t t'.
  destruct (capture_closes_on_ten_blocks_and_quiet_channel onoff_events
              [[0%Q; 1%Q]] [[0%Q]; [0%Q]] (repeat Statement 3)
              (repeat [[1%Q]; [1%Q]] 9) [[0%Q]; [0%Q]])
    as (_ & _ & H).
  destruct H as (_ & Hpc & Hlen); try (vm_compute; reflexivity).
  split; [exact Hpc|]. split; [exact Hlen|].
  apply (proj1 (capture_closes_on_ten_blocks_and_quiet_channel onoff_events
                  [[0%Q; 1%Q]] [[0%Q]; [0%Q]]
                  (repeat Statement 3
                   ++ concat (repeat (whole_callback [[0%Q]; [0%Q]]) 11)
                   ++ repeat Statement 2)
                  [] [])).
  vm_compute. reflexivity.
Defined.

(** C4 fails as stated.  The ninth block is silent on channel 0 and the
    control thread finds it so; the engine then delivers a tenth block
    that sounds, and the control thread, finding ten blocks, leaves the
    loop: the block last captured is not silent.  And with no call
    overlapping a statement, ten blocks whose channel 0 is silent while
    channel 1 sounds end the loop as well. *)
Lemma capture_closes_while_last_block_sounds :
  let loud := [[1%Q]; [1%Q]] in
  let t0 := NnFftThreads.play onoff_events (repeat Statement 3)
              (start [[0%Q; 1%Q]] [[0%Q]; [0%Q]]) in
  let t := NnFftThreads.play onoff_events
             (concat (repeat (whole_callback loud) 8)
              ++ whole_callback [[0%Q]; [1%Q]] ++ [Statement]
              ++ whole_callback loud ++ [Statement]) t0 in
  let u := NnFftThreads.play onoff_events
             (NnFftThreads.sequential onoff_events
                (scripted (repeat [[0%Q]; [1%Q]] 10)) t0) t0 in
  pc (globals t0) = L86 /\
  pc (globals t) = L90 /\ length (buffers (globals t)) = 10%nat /\
  last (buffers (globals t)) = Some loud /\
  any (nth 0 (buffer_ (globals t)) []) = true /\
  pc (globals u) = L90 /\ last (buffers (globals u)) = Some [[0%Q]; [1%Q]] /\
  silent (buffer_ (globals u)) = false.
Proof. vm_compute. repeat split; reflexivity. Qed.

(** The array built by a call of [process] may be stored after line 93
    has emptied [buffers]: the next cycle then starts with the blocks of
    the cycle before. *)
Lemma late_store_leaves_blocks :
  let t := NnFftThreads.play onoff_events
             (repeat Statement 3
              ++ concat (repeat (whole_callback [[0%Q]; [0%Q]]) 10)
              ++ [Statement; Enter [[1%Q]; [1%Q]]] ++ repeat Proceed 4
              ++ repeat Statement 5 ++ [Proceed])
             (start [[0%Q; 1%Q]; [1%Q; 0%Q]] [[0%Q]; [0%Q]]) in
  pc (globals t) = L81 /\ cur (globals t) = 1%nat /\
  callback t = Idle /\ note_toggle (globals t) = false /\
  length (buffers (globals t)) = 11%nat /\
  (exists r, recordings (globals t) !! 0%nat = Some r /\
             option_map (@length frame) (rec_buffers r) = Some 10%nat).
Proof.
  vm_compute. repeat split; try reflexivity.
  eexists. split; reflexivity.
Qed.

Lemma sink_enabled_only_in_cycle_witness :
  let t := NnFftThreads.play onoff_events
             (repeat Statement 3 ++ [Enter [[1%Q]; [1%Q]]; Proceed])
             (start [[0%Q; 1%Q]] [[0%Q]; [0%Q]]) in
  (pc (globals t) = L85 \/ pc (globals t) = L86 \/ pc (globals t) = L90) /\
  midi_out (globals (move_step onoff_events t Proceed))
  = midi_out (globals t).
Proof.
  intros t.
  destruct (sink_enabled_only_in_cycle onoff_events
              [[0%Q; 1%Q]] [[0%Q]; [0%Q]]
              (repeat Statement 3 ++ [Enter [[1%Q]; [1%Q]]; Proceed]))
    as (Hsink & Hkeep).
  split.
  - apply Hsink. vm_compute. reflexivity.
  - destruct (Hkeep Proceed) as (_ & _ & _ & _ & _ & Hout & _);
      [now left | exact Hout].
Defined.

Lemma wait_has_no_bound_witness :
  let t := NnFftThreads.play onoff_events
             (repeat Statement 3 ++ whole_callback [[1%Q]; [0%Q]])
             (start [[0%Q; 1%Q]] [[0%Q]; [0%Q]]) in
  let t' := NnFftThreads.play onoff_events
              (concat (repeat [Enter [[1%Q]; [0%Q]]; Statement; Proceed;
                               Proceed; Statement; Proceed; Proceed;
                               Proceed; Statement] 12)) t in
  pc (globals t') = L86 /\ recordings (globals t') = recordings (globals t).
Proof.
  intros t t'.
  destruct (wait_has_no_bound onoff_events t
              (concat (repeat [Enter [[1%Q]; [0%Q]]; Statement; Proceed;
                               Proceed; Statement; Proceed; Proceed;
                               Proceed; Statement] 12)))
    as (Hpc & _ & _ & Hrec & _).
  - vm_compute. reflexivity.
  - vm_compute. reflexivity.
  - vm_compute. lia.
  - vm_compute. reflexivity.
  - vm_compute. exact I.
  - cbn [repeat concat app].
    repeat (constructor; [first [exact I | reflexivity]|]). constructor.
  - split; [exact Hpc | exact Hrec].
Defined.

Lemma cycle_stores_the_blocks_delivered_witness :
  let t := start [[0%Q; 1%Q]] [[0%Q]; [0%Q]] in
  let t' := NnFftThreads.play onoff_events
              (NnFftThreads.sequential onoff_events
                 (repeat Control 3 ++ scripted (repeat [[1%Q]; [1%Q]] 9)
                  ++ Callback [[0%Q]; [1%Q]] :: repeat Control 5) t) t in
  pc (globals t') = L81 /\ cur (globals t') = 1%nat /\
  buffers (globals t') = [] /\ note_toggle (globals t') = false.
Proof.
  intros t t'.
  destruct (cycle_stores_the_blocks_delivered onoff_events t
              (scripted (repeat [[1%Q]; [1%Q]] 9)) [[0%Q]; [1%Q]]
              {| pitch_vector := [0%Q; 1%Q]; rec_buffers := None |})
    as (_ & _ & H1 & H2 & H3 & H4 & _); try (vm_compute; reflexivity).
  - cbn. repeat split; left; lia.
  - repeat split; assumption.
Defined.

End ThreadFacts.
